(** * Company directory: verification of [tree_builder.py]

    The file embeds the two classes of [src/tree_builder.py],
    [EmployeeNode] and [TeamTree], with the methods [TeamTree.insert] and
    [TeamTree.print_tree], and proves the properties of the design notes
    against them.

    The methods are stated twice.
    - On trees: an [EmployeeNode] owns its two children, so a team is an
      inductive tree, [Optional[EmployeeNode]] is [option EmployeeNode], and
      a method that assigns to a field returns the updated tree.  The
      recursion of the methods is structural.  The properties are stated on
      this form.
    - On objects (module [Store]): a store maps references to objects whose
      fields hold references, [insert] allocates an object and assigns to a
      field, and the recursion is bounded by fuel.  On a store that holds a
      tree the two forms agree ([store_insert_refines],
      [store_print_refines]).

    Conventions.
    - [print] appends one line to the console; the console is a list of
      [Event]s, one constructor per [print] statement of the two methods,
      and [text] gives the characters each of them writes.
    - Text is ASCII: a Python [str] is a Rocq [string], [str.strip] removes
      the ASCII characters for which [str.isspace] holds and [str.lower]
      maps [A-Z] to [a-z].

    The rest of the file is embedded too: [EmployeeNode.__repr__] as
    [EmployeeNode_repr], and the interactive program [company_directory]
    as a function of the lines standard input delivers, whose runs are the
    sessions of the relation [session]. *)

From Stdlib Require Import Ascii.
From stdpp Require Import base tactics option list sorting strings gmap.

(** ** Python's [str] methods used by [insert] *)

Module Str.

(** [str.isspace] on a single ASCII character: TAB, LF, VT, FF, CR, the
    four separators FS, GS, RS, US, and the space. *)
Definition isspace (c : ascii) : bool :=
  let n := nat_of_ascii c in
  ((9 <=? n) && (n <=? 13)) || ((28 <=? n) && (n <=? 32)).

Fixpoint lstrip (s : string) : string :=
  match s with
  | EmptyString => EmptyString
  | String c s' => if isspace c then lstrip s' else s
  end.

(** [rstrip] drops the trailing run of spaces: a character is kept when
    something that is not a space follows it or it is not a space itself. *)
Fixpoint rstrip (s : string) : string :=
  match s with
  | EmptyString => EmptyString
  | String c s' =>
      match rstrip s' with
      | EmptyString => if isspace c then EmptyString else String c EmptyString
      | r => String c r
      end
  end.

Definition strip (s : string) : string := rstrip (lstrip s).

Definition lower_char (c : ascii) : ascii :=
  let n := nat_of_ascii c in
  if (65 <=? n) && (n <=? 90) then ascii_of_nat (n + 32) else c.

Definition upper_char (c : ascii) : ascii :=
  let n := nat_of_ascii c in
  if (97 <=? n) && (n <=? 122) then ascii_of_nat (n - 32) else c.

Fixpoint lower (s : string) : string :=
  match s with
  | EmptyString => EmptyString
  | String c s' => String (lower_char c) (lower s')
  end.

Fixpoint upper (s : string) : string :=
  match s with
  | EmptyString => EmptyString
  | String c s' => String (upper_char c) (upper s')
  end.

(** Every character of [s] is a space for [str.isspace]. *)
Fixpoint all_space (s : string) : bool :=
  match s with
  | EmptyString => true
  | String c s' => isspace c && all_space s'
  end.

(** [s * n] for a string [s] and a count [n]. *)
Fixpoint repeat (s : string) (n : nat) : string :=
  match n with
  | O => EmptyString
  | S n' => s +:+ repeat s n'
  end.

End Str.

(** ** The data model *)

(** [class EmployeeNode]: a name and two optional children. *)
#[local] Unset Elimination Schemes.
Inductive EmployeeNode : Type :=
  mkNode { name : string;
           left : option EmployeeNode;
           right : option EmployeeNode }.
#[local] Set Elimination Schemes.

(** [EmployeeNode(name)]: both children default to [None]. *)
Definition new_node (n : string) : EmployeeNode := mkNode n None None.

(** [class TeamTree]: the optional root. *)
Record TeamTree : Type := mkTree { root : option EmployeeNode }.

(** [TeamTree()], whose [__init__] sets [self.root = None]. *)
Definition empty_tree : TeamTree := mkTree None.

(** The assignment [tree.root = EmployeeNode(name)] of line 118, by which
    the caller sets the root. *)
Definition set_root (self : TeamTree) (n : string) : TeamTree :=
  mkTree (Some (new_node n)).

(** The two values [side_norm] has once it passed the test
    [side_norm not in ("left", "right")]. *)
Inductive Side : Type := LEFT | RIGHT.

#[global] Instance Side_eq_dec : EqDecision Side.
Proof. solve_decision. Defined.

Definition side_str (sd : Side) : string :=
  match sd with LEFT => "left" | RIGHT => "right" end.

(** [getattr(node, side_norm)] and [setattr(node, side_norm, child)]. *)
Definition getattr (node : EmployeeNode) (sd : Side) : option EmployeeNode :=
  match sd with LEFT => left node | RIGHT => right node end.

Definition setattr (node : EmployeeNode) (sd : Side) (child : EmployeeNode)
  : EmployeeNode :=
  match sd with
  | LEFT => mkNode (name node) (Some child) (right node)
  | RIGHT => mkNode (name node) (left node) (Some child)
  end.

(** ** The console *)

(** One constructor per [print] statement of [insert] and [print_tree]. *)
Inductive Event : Type :=
  | InvalidSide                                  (* lines 39 and 44 *)
  | NoRoot                                       (* line 48 *)
  | SlotOccupied (manager : string) (sd : Side) (occupant : string)
                                                 (* line 58 *)
  | ManagerNotFound (manager : string)           (* line 74 *)
  | EmptyTeam                                    (* line 82 *)
  | NodeLine (level : nat) (who : string).       (* line 89 *)

#[global] Instance Event_eq_dec : EqDecision Event.
Proof. solve_decision. Defined.

(** The characters each statement prints. *)
Definition text (e : Event) : string :=
  match e with
  | InvalidSide => "❌ Error: side must be 'left' or 'right'."
  | NoRoot =>
      "❌ Error: Cannot insert because the team lead (root) is not set yet."
  | SlotOccupied m sd occ =>
      "❌ Error: " +:+ m +:+ "'s " +:+ Str.upper (side_str sd)
        +:+ " side is already occupied by " +:+ occ +:+ "."
  | ManagerNotFound m =>
      "❌ Error: Manager named '" +:+ m
        +:+ "' does not exist in the current team tree."
  | EmptyTeam => "(empty team)"
  | NodeLine level who => Str.repeat "  " level +:+ "- " +:+ who
  end.

Definition is_ManagerNotFound (e : Event) : bool :=
  match e with ManagerNotFound _ => true | _ => false end.

(** ** [TeamTree.insert] *)

(** Lines 38-45: [side] is [None] or a string; the string is stripped and
    lower-cased and must then be ["left"] or ["right"]. *)
Definition norm_side (side : option string) : option Side :=
  match side with
  | None => None
  | Some s =>
      let side_norm := Str.lower (Str.strip s) in
      if String.eqb side_norm "left" then Some LEFT
      else if String.eqb side_norm "right" then Some RIGHT
      else None
  end.

(** Lines 38-45 and 54-75 for a frame whose [current_node] is [cur]; lines
    47-52 matter to the outermost frame only and are in [insert] below.
    [is_root] is the test [current_node is self.root] of line 73: nodes are
    owned by their parent, so the root object is the current node of the
    outermost frame only.  The recursive calls receive [side_norm] as their
    [side] and normalise it again, as the source does.  The result is the
    returned flag, the node after the call and the lines printed. *)
Fixpoint insert_at (manager_name employee_name : string) (side : option string)
    (is_root : bool) (cur : EmployeeNode) {struct cur}
  : bool * EmployeeNode * list Event :=
  match norm_side side with
  | None => (false, cur, [InvalidSide])
  | Some sd =>
      if String.eqb (name cur) manager_name then
        match getattr cur sd with
        | Some target_child =>
            (false, cur, [SlotOccupied manager_name sd (name target_child)])
        | None => (true, setattr cur sd (new_node employee_name), [])
        end
      else
        let '(okl, l', outl) :=
          match left cur with
          | None => (false, None, [])
          | Some l =>
              let '(b, l1, o) :=
                insert_at manager_name employee_name (Some (side_str sd))
                  false l in
              (b, Some l1, o)
          end in
        if okl then (true, mkNode (name cur) l' (right cur), outl)
        else
          let '(okr, r', outr) :=
            match right cur with
            | None => (false, None, [])
            | Some r =>
                let '(b, r1, o) :=
                  insert_at manager_name employee_name (Some (side_str sd))
                    false r in
                (b, Some r1, o)
            end in
          if okr then (true, mkNode (name cur) l' r', outl ++ outr)
          else
            (false, mkNode (name cur) l' r',
             outl ++ outr
               ++ (if is_root then [ManagerNotFound manager_name] else []))
  end.

(** The call [tree.insert(manager_name, employee_name, side)], with
    [current_node] left to its default [None]. *)
Definition insert (self : TeamTree) (manager_name employee_name : string)
    (side : option string) : bool * TeamTree * list Event :=
  match norm_side side with
  | None => (false, self, [InvalidSide])
  | Some _ =>
      match root self with
      | None => (false, self, [NoRoot])
      | Some r =>
          let '(b, r', out) :=
            insert_at manager_name employee_name side true r in
          (b, mkTree (Some r'), out)
      end
  end.

(** ** [TeamTree.print_tree] *)

(** Lines 88-91 for a frame whose [node] is an object; a recursive call on
    an absent child has [level > 0] and returns at line 86. *)
Fixpoint print_node (node : EmployeeNode) (level : nat) : list Event :=
  NodeLine level (name node)
  :: match left node with
     | None => []
     | Some l => print_node l (level + 1)
     end
  ++ match right node with
     | None => []
     | Some r => print_node r (level + 1)
     end.

(** The call [tree.print_tree()]: [node] is [None] and [level] is [0]. *)
Definition print_tree (self : TeamTree) : list Event :=
  match root self with
  | None => [EmptyTeam]
  | Some r => print_node r 0
  end.

(** What the console shows after [print_tree]. *)
Definition render (self : TeamTree) : list string :=
  text <$> print_tree self.

(** ** Positions in a tree *)

(** A position is the list of sides followed from the root; its length is
    the distance from the root. *)
Abbreviation path := (list Side).

Fixpoint node_at (t : EmployeeNode) (p : path) {struct p}
  : option EmployeeNode :=
  match p with
  | [] => Some t
  | sd :: p' =>
      match getattr t sd with
      | None => None
      | Some c => node_at c p'
      end
  end.

Definition name_at (t : EmployeeNode) (p : path) : option string :=
  name <$> node_at t p.

(** Number of nodes. *)
Fixpoint size (t : EmployeeNode) : nat :=
  S (match left t with None => 0 | Some l => size l end
     + match right t with None => 0 | Some r => size r end).

(** Number of nodes on the longest branch. *)
Fixpoint height (t : EmployeeNode) : nat :=
  S (match left t with None => 0 | Some l => height l end
     `max` match right t with None => 0 | Some r => height r end).

(** The positions of a tree, the node first, then those of its left
    subtree, then those of its right subtree. *)
Fixpoint positions (t : EmployeeNode) : list path :=
  [] :: match left t with
        | None => []
        | Some l => cons LEFT <$> positions l
        end
     ++ match right t with
        | None => []
        | Some r => cons RIGHT <$> positions r
        end.

(** The first position, in that order, whose node is called [m]. *)
Definition first_match (m : string) (t : EmployeeNode) : option path :=
  List.find (fun p => bool_decide (name_at t p = Some m)) (positions t).

(** [p] comes before [q] in a depth-first, left-to-right visit: [p] is a
    proper ancestor of [q], or the two part ways with [p] going left. *)
Fixpoint path_lt (p q : path) : bool :=
  match p, q with
  | [], [] => false
  | [], _ :: _ => true
  | _ :: _, [] => false
  | LEFT :: p', LEFT :: q' => path_lt p' q'
  | RIGHT :: p', RIGHT :: q' => path_lt p' q'
  | LEFT :: _, RIGHT :: _ => true
  | RIGHT :: _, LEFT :: _ => false
  end.

Definition before (p q : path) : Prop := path_lt p q.

(** The tree [t] with [child] stored in slot [sd] of the node at [p]. *)
Fixpoint attach (t : EmployeeNode) (p : path) (sd : Side)
    (child : EmployeeNode) {struct p} : EmployeeNode :=
  match p with
  | [] => setattr t sd child
  | LEFT :: p' =>
      mkNode (name t)
        match left t with
        | None => None
        | Some l => Some (attach l p' sd child)
        end
        (right t)
  | RIGHT :: p' =>
      mkNode (name t) (left t)
        match right t with
        | None => None
        | Some r => Some (attach r p' sd child)
        end
  end.

(** ** Sequences of calls *)

(** The arguments of one call of [insert]. *)
Record Call : Type :=
  mkCall { manager : string; employee : string; side_arg : option string }.

(** The calls of a sequence one after the other, each on the tree the
    previous one left; the flags returned and the lines printed. *)
Fixpoint insert_seq (self : TeamTree) (calls : list Call)
  : TeamTree * list bool * list Event :=
  match calls with
  | [] => (self, [], [])
  | c :: calls' =>
      let '(b, self1, out1) :=
        insert self (manager c) (employee c) (side_arg c) in
      let '(self2, bs, out2) := insert_seq self1 calls' in
      (self2, b :: bs, out1 ++ out2)
  end.

(** The operations of the core, for sequences that mix them. *)
Inductive Op : Type :=
  | OpInsert (c : Call)
  | OpRender.

Definition step (self : TeamTree) (op : Op) : TeamTree * list Event :=
  match op with
  | OpInsert c =>
      let '(_, self', out) :=
        insert self (manager c) (employee c) (side_arg c) in
      (self', out)
  | OpRender => (self, print_tree self)
  end.

Fixpoint run (self : TeamTree) (ops : list Op) : TeamTree * list Event :=
  match ops with
  | [] => (self, [])
  | op :: ops' =>
      let '(self1, out1) := step self op in
      let '(self2, out2) := run self1 ops' in
      (self2, out1 ++ out2)
  end.

(** ** Listings, names and growth *)

(** The line of the node at position [p] when the root is printed at
    [level]. *)
Definition line_at (t : EmployeeNode) (level : nat) (p : path) : Event :=
  NodeLine (level + length p) (default "" (name_at t p)).

(** The names on the lines of a listing. *)
Definition who_of (ev : Event) : option string :=
  match ev with NodeLine _ w => Some w | _ => None end.

(** The names of a tree, in the order of its listing. *)
Fixpoint names (t : EmployeeNode) : list string :=
  name t :: match left t with None => [] | Some l => names l end
         ++ match right t with None => [] | Some r => names r end.

(** Every node of [t] is in [t'], at the same place and under the same
    name. *)
Definition extends (t t' : EmployeeNode) : Prop :=
  forall p n, name_at t p = Some n -> name_at t' p = Some n.

(** ** The same methods on objects *)

(** Python objects have an identity and fields that are assigned to; the
    recursion of the two methods is general recursion on references.  The
    module below states the methods on a store of objects, with [fuel]
    bounding the depth of the recursion: [None] means that the fuel did not
    suffice or that a reference led nowhere. *)
Module Store.

(** The identity of an object, [id(node)]. *)
Definition ref : Type := positive.

(** An [EmployeeNode] object: its name and the references it holds. *)
Record Object : Type :=
  mkObject { obj_name : string;
             obj_left : option ref;
             obj_right : option ref }.

Abbreviation heap := (gmap ref Object).

(** [EmployeeNode(name)]. *)
Definition new_object (n : string) : Object := mkObject n None None.

Definition obj_getattr (o : Object) (sd : Side) : option ref :=
  match sd with LEFT => obj_left o | RIGHT => obj_right o end.

Definition obj_setattr (o : Object) (sd : Side) (child : ref) : Object :=
  match sd with
  | LEFT => mkObject (obj_name o) (Some child) (obj_right o)
  | RIGHT => mkObject (obj_name o) (obj_left o) (Some child)
  end.

(** [TeamTree.insert], lines 38-75; [self_root] is [self.root], which the
    method reads and never assigns. *)
Fixpoint insert (fuel : nat) (h : heap) (self_root : option ref)
    (manager_name employee_name : string) (side : option string)
    (current_node : option ref) {struct fuel}
  : option (bool * heap * list Event) :=
  match fuel with
  | O => None
  | S fuel =>
      match norm_side side with
      | None => Some (false, h, [InvalidSide])
      | Some sd =>
          match self_root with
          | None => Some (false, h, [NoRoot])
          | Some rt =>
              let cur := default rt current_node in
              node ← h !! cur;
              if String.eqb (obj_name node) manager_name then
                match obj_getattr node sd with
                | Some target_child =>
                    child ← h !! target_child;
                    Some (false, h,
                          [SlotOccupied manager_name sd (obj_name child)])
                | None =>
                    let fresh_ref := fresh (dom h) in
                    Some (true,
                          <[cur := obj_setattr node sd fresh_ref]>
                            (<[fresh_ref := new_object employee_name]> h),
                          [])
                end
              else
                '(okl, h1, outl) ←
                  match obj_left node with
                  | None => Some (false, h, [])
                  | Some l =>
                      insert fuel h self_root manager_name employee_name
                        (Some (side_str sd)) (Some l)
                  end;
                if (okl : bool) then Some (true, h1, outl)
                else
                  node1 ← h1 !! cur;
                  '(okr, h2, outr) ←
                    match obj_right node1 with
                    | None => Some (false, h1, [])
                    | Some r =>
                        insert fuel h1 self_root manager_name employee_name
                          (Some (side_str sd)) (Some r)
                    end;
                  if (okr : bool) then Some (true, h2, outl ++ outr)
                  else
                    Some (false, h2,
                          outl ++ outr
                            ++ (if decide (cur = rt)
                                then [ManagerNotFound manager_name]
                                else []))
          end
      end
  end.

(** [TeamTree.print_tree], lines 77-91. *)
Fixpoint print_tree (fuel : nat) (h : heap) (self_root : option ref)
    (node : option ref) (level : nat) {struct fuel} : option (list Event) :=
  match fuel with
  | O => None
  | S fuel =>
      let lines (r : ref) : option (list Event) :=
        o ← h !! r;
        outl ← print_tree fuel h self_root (obj_left o) (level + 1);
        outr ← print_tree fuel h self_root (obj_right o) (level + 1);
        Some (NodeLine level (obj_name o) :: outl ++ outr) in
      match node with
      | None =>
          if level =? 0 then
            match self_root with
            | None => Some [EmptyTeam]
            | Some rt => lines rt
            end
          else Some []
      | Some r => lines r
      end
  end.

(** The objects reached from [r] form the tree [t]; [fp] lists their
    references, the node first, then the left and the right subtree. *)
Fixpoint is_tree (h : heap) (r : ref) (t : EmployeeNode) (fp : list ref)
    {struct t} : Prop :=
  exists o fl fr,
    h !! r = Some o /\ obj_name o = name t /\ fp = r :: fl ++ fr
    /\ match obj_left o, left t with
       | Some a, Some l => is_tree h a l fl
       | None, None => fl = []
       | _, _ => False
       end
    /\ match obj_right o, right t with
       | Some a, Some l => is_tree h a l fr
       | None, None => fr = []
       | _, _ => False
       end.

(** The store holds the tree of [self] below [self_root], and no object
    of it is reached twice. *)
Definition represents (h : heap) (self_root : option ref) (self : TeamTree)
  : Prop :=
  match self_root, root self with
  | None, None => True
  | Some r, Some t => exists fp, is_tree h r t fp /\ NoDup fp
  | _, _ => False
  end.

(** [tree.root = EmployeeNode(name)], line 118. *)
Definition set_root (h : heap) (n : string) : heap * option ref :=
  let r := fresh (dom h) in (<[r := new_object n]> h, Some r).

End Store.

(** ** Relating the store to the tree *)

(** The two recursive calls of a frame, on a child that may be absent. *)
Definition insert_child (m e : string) (sd : Side) (c : option EmployeeNode)
  : bool * option EmployeeNode * list Event :=
  match c with
  | None => (false, None, [])
  | Some l =>
      let '(b, l1, o) := insert_at m e (Some (side_str sd)) false l in
      (b, Some l1, o)
  end.

Definition store_insert_child (fuel : nat) (h : Store.heap) (rt : Store.ref)
    (m e : string) (sd : Side) (c : option Store.ref)
  : option (bool * Store.heap * list Event) :=
  match c with
  | None => Some (false, h, [])
  | Some l => Store.insert fuel h (Some rt) m e (Some (side_str sd)) (Some l)
  end.

(** The reference [oa] leads to the tree [ot], or both are absent. *)
Definition is_child (h : Store.heap) (oa : option Store.ref)
    (ot : option EmployeeNode) (f : list Store.ref) : Prop :=
  match oa, ot with
  | Some a, Some l => Store.is_tree h a l f
  | None, None => f = []
  | _, _ => False
  end.

(** What a call may have done to the store: on [True], the objects of [fp]
    and one new object now satisfy [Q], and the other objects are as they
    were; on [False], nothing. *)
Definition grown (h : Store.heap) (fp : list Store.ref) (ok : bool)
    (h' : Store.heap) (Q : list Store.ref -> Prop) : Prop :=
  if ok
  then exists fp',
         Q fp' /\ NoDup fp'
         /\ (forall x, x ∈ fp' -> x ∈ fp \/ x = fresh (dom h))
         /\ (forall x, is_Some (h !! x) -> x ∉ fp -> h' !! x = h !! x)
  else h' = h.

Definition node_refined (m e : string) (sd : Side) (rt : Store.ref)
    (t : EmployeeNode) : Prop :=
  forall fuel h s (b : bool) r fp ok t' out,
    Store.is_tree h r t fp ->
    NoDup fp ->
    (if b then r = rt else rt ∉ fp) ->
    height t <= fuel ->
    norm_side s = Some sd ->
    insert_at m e s b t = (ok, t', out) ->
    exists h',
      Store.insert fuel h (Some rt) m e s (Some r) = Some (ok, h', out)
      /\ grown h fp ok h' (Store.is_tree h' r t').

Definition child_refined (m e : string) (sd : Side) (rt : Store.ref)
    (oc : option EmployeeNode) : Prop :=
  forall fuel h oa f ok oc' out,
    is_child h oa oc f ->
    NoDup f ->
    rt ∉ f ->
    from_option height 0 oc <= fuel ->
    insert_child m e sd oc = (ok, oc', out) ->
    exists h',
      store_insert_child fuel h rt m e sd oa = Some (ok, h', out)
      /\ grown h f ok h' (is_child h' oa oc')
      /\ (ok = false -> oc' = oc).

(** The number of nodes of the tree. *)
Definition nodes (self : TeamTree) : nat := from_option size 0 (root self).

(** ** The nodes the search of [insert] stops at *)

(** [p] leads to a node called [m] and passes through no node called [m]
    on the way: line 55 is reached for that node. *)
Fixpoint topmost (m : string) (t : EmployeeNode) (p : path) {struct p}
  : bool :=
  match p with
  | [] => String.eqb (name t) m
  | sd :: p' =>
      negb (String.eqb (name t) m)
      && match getattr t sd with
         | Some c => topmost m c p'
         | None => false
         end
  end.

(** Those nodes, in depth-first order. *)
Definition candidates (m : string) (t : EmployeeNode) : list path :=
  List.filter (topmost m t) (positions t).

(** Going through them in order: a line for each whose slot [sd] is taken,
    until one has it free. *)
Fixpoint visit (m : string) (sd : Side) (t : EmployeeNode)
    (cands : list path) : option path * list Event :=
  match cands with
  | [] => (None, [])
  | p :: rest =>
      match node_at t (p ++ [sd]) with
      | Some occupant =>
          let '(found, out) := visit m sd t rest in
          (found, SlotOccupied m sd (name occupant) :: out)
      | None => (Some p, [])
      end
  end.

(** The candidates of a node that come from a child. *)
Definition child_candidates (m : string) (d : Side)
    (c : option EmployeeNode) : list path :=
  match c with
  | None => []
  | Some l => cons d <$> candidates m l
  end.

(** What a frame of [insert] returns, from the nodes its search stops
    at. *)
Definition frame_result (m e : string) (sd : Side) (b : bool)
    (t : EmployeeNode) : bool * EmployeeNode * list Event :=
  match visit m sd t (candidates m t) with
  | (Some p, out) => (true, attach t p sd (new_node e), out)
  | (None, out) =>
      (false, t,
       out ++ (if b && negb (String.eqb (name t) m)
               then [ManagerNotFound m] else []))
  end.


(** [insert] can use the node at [p]: it is called [m], no node above it
    is, and its slot [sd] is free. *)
Definition usable (m : string) (sd : Side) (t : EmployeeNode) (p : path)
  : Prop :=
  name_at t p = Some m
  /\ (forall q, q `prefix_of` p -> q <> p -> name_at t q <> Some m)
  /\ node_at t (p ++ [sd]) = None.

(** A line of line 58 for manager [m] and side [sd]. *)
Definition occupied_line (m : string) (sd : Side) (ev : Event) : Prop :=
  exists occupant, ev = SlotOccupied m sd occupant.

(** ** Trees with the same listing *)




(** ** The interactive program, [company_directory] *)

(** What a call of [input] receives from standard input: a line, without
    its end of line, or Ctrl-C ([KeyboardInterrupt]); when the list is
    exhausted the input is at its end ([EOFError]).  Interrupts at other
    moments than a call of [input] are not modelled. *)
Inductive Stdin : Type :=
  | Line (s : string)
  | Interrupt.

(** The prompts of the six calls of [input]. *)
Inductive Prompt : Type :=
  | AskChoice       (* line 108 *)
  | AskLeadName     (* line 110 *)
  | AskReplace      (* line 115 *)
  | AskManager      (* line 124 *)
  | AskEmployee     (* line 125 *)
  | AskSide.        (* line 126 *)

(** What the program writes: one constructor per [print] or [input]
    statement of [company_directory], and [Core] for the lines of
    [insert] and [print_tree]. *)
Inductive Output : Type :=
  | Menu                                              (* line 107 *)
  | Ask (p : Prompt)
  | NameEmpty                                         (* line 112 *)
  | LeadAdded (lead : string)                         (* line 119 *)
  | NeedLead                                          (* line 122 *)
  | Core (ev : Event)
  | EmployeeAdded (who side_upper boss : string)      (* line 129 *)
  | Header                                            (* line 131 *)
  | Blank                                             (* line 133 *)
  | GoodBye                                           (* line 135 *)
  | InvalidChoice                                     (* line 138 *)
  | Interrupted.                                      (* line 140 *)

#[global] Instance Prompt_eq_dec : EqDecision Prompt.
Proof. solve_decision. Defined.

#[global] Instance Output_eq_dec : EqDecision Output.
Proof. solve_decision. Defined.

(** The end of line that [print] adds. *)
Definition nl : string := String (ascii_of_nat 10) EmptyString.

(** The constant [MENU] of lines 98-104. *)
Definition MENU : string :=
  nl +:+ "📋 Team Management Menu" +:+ nl
     +:+ "1. Add Team Lead (root)" +:+ nl
     +:+ "2. Add Employee" +:+ nl
     +:+ "3. Print Team Structure" +:+ nl
     +:+ "4. Exit" +:+ nl.

Definition prompt_text (p : Prompt) : string :=
  match p with
  | AskChoice => "Choose an option (1–4): "
  | AskLeadName => "Enter team lead's name: "
  | AskReplace => "A team lead already exists. Replace it? (y/N): "
  | AskManager => "Enter the manager's name: "
  | AskEmployee => "Enter the new employee's name: "
  | AskSide => "Should this employee be on the LEFT or RIGHT of the manager? "
  end.

(** The characters each statement writes to standard output. *)
Definition output_text (o : Output) : string :=
  match o with
  | Menu => MENU +:+ nl
  | Ask p => prompt_text p
  | NameEmpty => "❌ Name cannot be empty." +:+ nl
  | LeadAdded lead => "✅ " +:+ lead +:+ " added as the team lead." +:+ nl
  | NeedLead => "❌ Please add a team lead first (option 1)." +:+ nl
  | Core ev => text ev +:+ nl
  | EmployeeAdded who side_upper boss =>
      "✅ " +:+ who +:+ " added to the " +:+ side_upper +:+ " of " +:+ boss
        +:+ nl
  | Header => nl +:+ "🌳 Current Team Structure:" +:+ nl
  | Blank => nl
  | GoodBye => "Good Bye!" +:+ nl
  | InvalidChoice => "❌ Invalid choice. Please enter a number 1–4." +:+ nl
  | Interrupted => nl +:+ "Good Bye!" +:+ nl
  end.

(** A result with the lines written before it. *)
Definition after (pre : list Output) (res : TeamTree * list Output)
  : TeamTree * list Output :=
  (res.1, pre ++ res.2).

(** The loop of lines 105-141, from the tree [tree] and with [stdin] still
    to read: the tree when the program ends and what it wrote.  Every turn
    of the loop reads at least one line, so the recursion follows the
    input. *)
Fixpoint company_directory_loop (tree : TeamTree) (stdin : list Stdin)
    {struct stdin} : TeamTree * list Output :=
  match stdin with
  | Line c :: rest =>
      let choice := Str.strip c in
      if String.eqb choice "1" then
        match rest with
        | Line l1 :: rest1 =>
            let lead := Str.strip l1 in
            if String.eqb lead "" then
              after [Menu; Ask AskChoice; Ask AskLeadName; NameEmpty]
                (company_directory_loop tree rest1)
            else
              match root tree with
              | Some _ =>
                  match rest1 with
                  | Line l2 :: rest2 =>
                      let confirm := Str.lower (Str.strip l2) in
                      if negb (String.eqb confirm "y") then
                        after [Menu; Ask AskChoice; Ask AskLeadName;
                               Ask AskReplace]
                          (company_directory_loop tree rest2)
                      else
                        after [Menu; Ask AskChoice; Ask AskLeadName;
                               Ask AskReplace; LeadAdded lead]
                          (company_directory_loop (set_root tree lead) rest2)
                  | _ =>
                      (tree, [Menu; Ask AskChoice; Ask AskLeadName;
                              Ask AskReplace; Interrupted])
                  end
              | None =>
                  after [Menu; Ask AskChoice; Ask AskLeadName; LeadAdded lead]
                    (company_directory_loop (set_root tree lead) rest1)
              end
        | _ => (tree, [Menu; Ask AskChoice; Ask AskLeadName; Interrupted])
        end
      else if String.eqb choice "2" then
        match root tree with
        | None =>
            after [Menu; Ask AskChoice; NeedLead]
              (company_directory_loop tree rest)
        | Some _ =>
            match rest with
            | Line l1 :: rest1 =>
                match rest1 with
                | Line l2 :: rest2 =>
                    match rest2 with
                    | Line l3 :: rest3 =>
                        let manager := Str.strip l1 in
                        let employee := Str.strip l2 in
                        let side := Str.lower (Str.strip l3) in
                        let '(success, tree', out) :=
                          insert tree manager employee (Some side) in
                        after ([Menu; Ask AskChoice; Ask AskManager;
                                Ask AskEmployee; Ask AskSide]
                                 ++ (Core <$> out)
                                 ++ (if success
                                     then [EmployeeAdded employee
                                             (Str.upper side) manager]
                                     else []))
                          (company_directory_loop tree' rest3)
                    | _ =>
                        (tree, [Menu; Ask AskChoice; Ask AskManager;
                                Ask AskEmployee; Ask AskSide; Interrupted])
                    end
                | _ =>
                    (tree, [Menu; Ask AskChoice; Ask AskManager;
                            Ask AskEmployee; Interrupted])
                end
            | _ => (tree, [Menu; Ask AskChoice; Ask AskManager; Interrupted])
            end
        end
      else if String.eqb choice "3" then
        after ([Menu; Ask AskChoice; Header] ++ (Core <$> print_tree tree)
                 ++ [Blank])
          (company_directory_loop tree rest)
      else if String.eqb choice "4" then
        (tree, [Menu; Ask AskChoice; GoodBye])
      else
        after [Menu; Ask AskChoice; InvalidChoice]
          (company_directory_loop tree rest)
  | _ => (tree, [Menu; Ask AskChoice; Interrupted])
  end.

(** [company_directory()]: the loop from [tree = TeamTree()], line 96. *)
Definition company_directory (stdin : list Stdin) : TeamTree * list Output :=
  company_directory_loop empty_tree stdin.

(** What appears on standard output. *)
Definition stdout (out : list Output) : string :=
  foldr (fun o s => output_text o +:+ s) EmptyString out.

(** One turn of the loop that goes on to the next: the tree before, what
    the turn writes, the tree after. *)
Inductive turn : TeamTree -> list Output -> TeamTree -> Prop :=
  | turn_name_empty tree :
      turn tree [Menu; Ask AskChoice; Ask AskLeadName; NameEmpty] tree
  | turn_keep_lead tree :
      is_Some (root tree) ->
      turn tree [Menu; Ask AskChoice; Ask AskLeadName; Ask AskReplace] tree
  | turn_replace_lead tree l1 :
      is_Some (root tree) ->
      Str.strip l1 <> "" ->
      turn tree
        [Menu; Ask AskChoice; Ask AskLeadName; Ask AskReplace;
         LeadAdded (Str.strip l1)]
        (set_root tree (Str.strip l1))
  | turn_first_lead tree l1 :
      root tree = None ->
      Str.strip l1 <> "" ->
      turn tree [Menu; Ask AskChoice; Ask AskLeadName; LeadAdded (Str.strip l1)]
        (set_root tree (Str.strip l1))
  | turn_need_lead tree :
      root tree = None ->
      turn tree [Menu; Ask AskChoice; NeedLead] tree
  | turn_insert tree l1 l2 l3 success tree' out :
      is_Some (root tree) ->
      insert tree (Str.strip l1) (Str.strip l2)
        (Some (Str.lower (Str.strip l3)))
      = (success, tree', out) ->
      turn tree
        ([Menu; Ask AskChoice; Ask AskManager; Ask AskEmployee; Ask AskSide]
           ++ (Core <$> out)
           ++ (if success
               then [EmployeeAdded (Str.strip l2)
                       (Str.upper (Str.lower (Str.strip l3))) (Str.strip l1)]
               else []))
        tree'
  | turn_print tree :
      turn tree
        ([Menu; Ask AskChoice; Header] ++ (Core <$> print_tree tree)
           ++ [Blank])
        tree
  | turn_invalid tree :
      turn tree [Menu; Ask AskChoice; InvalidChoice] tree.

(** A run of the program: turns, then a last turn that writes prompts and
    a farewell, either the one of choice 4 or the one of an interrupted or
    exhausted input. *)
Inductive session : TeamTree -> TeamTree -> list Output -> Prop :=
  | session_end tree prompts bye :
      Forall (fun o => o = Menu \/ exists p, o = Ask p) prompts ->
      bye = GoodBye \/ bye = Interrupted ->
      session tree tree (prompts ++ [bye])
  | session_turn tree tree1 tree' out1 out :
      turn tree out1 tree1 ->
      session tree1 tree' out ->
      session tree tree' (out1 ++ out).

(** The number of nodes that the confirmations of a run announce. *)
Definition announced (n : nat) (out : list Output) : nat :=
  foldl (fun k o =>
           match o with
           | LeadAdded _ => 1
           | EmployeeAdded _ _ _ => S k
           | _ => k
           end) n out.

(** [s] does not begin with a space. *)
Definition starts_clean (s : string) : Prop :=
  match s with
  | EmptyString => True
  | String c _ => Str.isspace c = false
  end.

(** A line that announces no change of the tree. *)
Definition neutral (o : Output) : Prop :=
  match o with
  | LeadAdded _ | EmployeeAdded _ _ _ => False
  | _ => True
  end.

(** The tree has a root. *)
Definition has_lead (tree : TeamTree) : bool :=
  match root tree with Some _ => true | None => false end.

(** Reading what the program wrote, with [known] telling whether a team
    lead was announced so far: the lines that say there is none come
    before the first announcement only. *)
Fixpoint orderly (known : bool) (out : list Output) : bool :=
  match out with
  | [] => true
  | LeadAdded _ :: rest => orderly true rest
  | NeedLead :: rest => negb known && orderly known rest
  | Core EmptyTeam :: rest => negb known && orderly known rest
  | _ :: rest => orderly known rest
  end.

(** ** [EmployeeNode.__repr__] *)

(** [repr] of an ASCII [str]: the text between quotes, double ones when
    it holds a single quote and no double quote, single ones otherwise;
    the quote in use and the backslash are escaped, and so are the control
    characters. *)
Definition single_quote : ascii := ascii_of_nat 39.
Definition double_quote : ascii := ascii_of_nat 34.
Definition backslash : ascii := ascii_of_nat 92.

Fixpoint has_char (c : ascii) (s : string) : bool :=
  match s with
  | EmptyString => false
  | String c' s' => Ascii.eqb c c' || has_char c s'
  end.

Definition hex_digit (n : nat) : ascii :=
  ascii_of_nat (if n <? 10 then 48 + n else 87 + n).

Definition repr_char (quote c : ascii) : string :=
  let n := nat_of_ascii c in
  if Ascii.eqb c quote || Ascii.eqb c backslash then
    String backslash (String c EmptyString)
  else if n =? 9 then String backslash "t"
  else if n =? 10 then String backslash "n"
  else if n =? 13 then String backslash "r"
  else if (n <? 32) || (n =? 127) then
    String backslash
      (String "x" (String (hex_digit (n / 16))
                     (String (hex_digit (n mod 16)) EmptyString)))
  else String c EmptyString.

Fixpoint repr_chars (quote : ascii) (s : string) : string :=
  match s with
  | EmptyString => EmptyString
  | String c s' => repr_char quote c +:+ repr_chars quote s'
  end.

Definition repr_str (s : string) : string :=
  let quote :=
    if has_char single_quote s && negb (has_char double_quote s)
    then double_quote else single_quote in
  String quote (repr_chars quote s +:+ String quote EmptyString).

(** [repr] of a name or of [None], the [!r] of lines 19-21. *)
Definition repr_child (o : option string) : string :=
  match o with
  | None => "None"
  | Some s => repr_str s
  end.

(** Lines 18-21. *)
Definition EmployeeNode_repr (self : EmployeeNode) : string :=
  let l := name <$> left self in
  let r := name <$> right self in
  "EmployeeNode(name=" +:+ repr_str (name self)
    +:+ ", left=" +:+ repr_child l
    +:+ ", right=" +:+ repr_child r +:+ ")".


(** ** Basic facts *)

(** The cases of a frame on a node that is not called [m]. *)
Ltac frame_cases m e sd l r :=
  destruct l as [l|]; cbn [from_option] in *;
  [destruct (insert_at m e (Some (side_str sd)) false l)
     as [[[] ?] ?] eqn:?|];
  (destruct r as [r|]; cbn [from_option] in *;
   [destruct (insert_at m e (Some (side_str sd)) false r)
      as [[[] ?] ?] eqn:?|]).

Lemma node_ind (P : EmployeeNode -> Prop) :
  (forall n l r,
      from_option P True l -> from_option P True r -> P (mkNode n l r)) ->
  forall t, P t.
Proof.
  intros H. fix IH 1. intros [n l r]. apply H.
  - destruct l as [l'|]; [apply IH | exact I].
  - destruct r as [r'|]; [apply IH | exact I].
Qed.

Lemma norm_side_str sd : norm_side (Some (side_str sd)) = Some sd.
Proof. by destruct sd. Qed.

(** Only the normalised side matters to a frame. *)
Lemma insert_at_norm m e s1 s2 b t :
  norm_side s1 = norm_side s2 -> insert_at m e s1 b t = insert_at m e s2 b t.
Proof. intros H. destruct t as [n l r]. simpl. by rewrite H. Qed.

Lemma insert_at_str m e s sd b t :
  norm_side s = Some sd ->
  insert_at m e s b t = insert_at m e (Some (side_str sd)) b t.
Proof. intros H. apply insert_at_norm. by rewrite norm_side_str. Qed.

(** ** Stripping and lower-casing *)

Lemma isspace_lower_char c : Str.isspace (Str.lower_char c) = Str.isspace c.
Proof. by destruct c as [[] [] [] [] [] [] [] []]. Qed.

Lemma lower_empty s : Str.lower s = EmptyString <-> s = EmptyString.
Proof. by destruct s. Qed.

Lemma lstrip_lower s : Str.lstrip (Str.lower s) = Str.lower (Str.lstrip s).
Proof.
  induction s as [|c s IH]; simpl; [done|].
  rewrite isspace_lower_char. by destruct (Str.isspace c).
Qed.

Lemma rstrip_lower s : Str.rstrip (Str.lower s) = Str.lower (Str.rstrip s).
Proof.
  induction s as [|c s IH]; simpl; [done|].
  rewrite IH, isspace_lower_char.
  destruct (Str.rstrip s); simpl; [|done]. by destruct (Str.isspace c).
Qed.

Lemma strip_lower s : Str.strip (Str.lower s) = Str.lower (Str.strip s).
Proof. unfold Str.strip. by rewrite lstrip_lower, rstrip_lower. Qed.

Lemma lstrip_all_space s : Str.all_space s = true -> Str.lstrip s = EmptyString.
Proof.
  induction s as [|c s IH]; simpl; [done|].
  destruct (Str.isspace c); [apply IH | done].
Qed.

Lemma lstrip_spaces pre s :
  Str.all_space pre = true -> Str.lstrip (pre +:+ s) = Str.lstrip s.
Proof.
  induction pre as [|c pre IH]; simpl; [done|].
  destruct (Str.isspace c); [apply IH | done].
Qed.

Lemma rstrip_all_space s : Str.all_space s = true -> Str.rstrip s = EmptyString.
Proof.
  induction s as [|c s IH]; simpl; [done|].
  destruct (Str.isspace c); [|done]. intros H. by rewrite (IH H).
Qed.

Lemma rstrip_spaces s post :
  Str.all_space post = true -> Str.rstrip (s +:+ post) = Str.rstrip s.
Proof.
  intros Hpost. induction s as [|c s IH]; simpl; [|by rewrite IH].
  by apply rstrip_all_space.
Qed.

Lemma strip_spaces pre s post :
  Str.all_space pre = true -> Str.all_space post = true ->
  Str.strip (pre +:+ s +:+ post) = Str.strip s.
Proof.
  intros Hpre Hpost. unfold Str.strip. rewrite lstrip_spaces by done.
  induction s as [|c s IH]; simpl.
  - change (EmptyString +:+ post) with post.
    by rewrite (lstrip_all_space post Hpost).
  - destruct (Str.isspace c); [done|].
    apply (rstrip_spaces (String c s) post Hpost).
Qed.

(** The side is read up to case and up to the spaces around it. *)
Lemma norm_side_case s1 s2 :
  Str.lower s1 = Str.lower s2 -> norm_side (Some s1) = norm_side (Some s2).
Proof. intros H. unfold norm_side. by rewrite <- !strip_lower, H. Qed.

Lemma norm_side_spaces pre s post :
  Str.all_space pre = true -> Str.all_space post = true ->
  norm_side (Some (pre +:+ s +:+ post)) = norm_side (Some s).
Proof. intros Hpre Hpost. unfold norm_side. by rewrite strip_spaces. Qed.

(** ** What a frame of [insert] does to its subtree *)

(** A frame that returns [True] stored the new node in the requested slot,
    empty until then, of a node called [manager_name]; a frame that returns
    [False] left its subtree as it was. *)
Lemma insert_at_effect m e s sd b t ok t' out :
  norm_side s = Some sd ->
  insert_at m e s b t = (ok, t', out) ->
  if ok
  then exists p, name_at t p = Some m /\ node_at t (p ++ [sd]) = None
                 /\ t' = attach t p sd (new_node e)
  else t' = t.
Proof.
  revert s b ok t' out.
  induction t as [n l r IHl IHr] using node_ind; intros s b ok t' out Hs.
  simpl. rewrite Hs.
  destruct (String.eqb_spec n m) as [->|Hne].
  - destruct (getattr (mkNode m l r) sd) as [c|] eqn:Hget.
    + intros [= <- <- <-]. done.
    + intros [= <- <- <-]. exists []. simpl. by rewrite Hget.
  - destruct l as [l0|]; simpl in IHl.
    + destruct (insert_at m e (Some (side_str sd)) false l0)
        as [[okl l1] outl] eqn:El.
      specialize (IHl _ _ _ _ _ (norm_side_str sd) El).
      destruct okl.
      * intros [= <- <- <-]. destruct IHl as (p & Hn & Hfree & ->).
        exists (LEFT :: p). done.
      * subst l1. destruct r as [r0|]; simpl in IHr.
        -- destruct (insert_at m e (Some (side_str sd)) false r0)
             as [[okr r1] outr] eqn:Er.
           specialize (IHr _ _ _ _ _ (norm_side_str sd) Er).
           destruct okr; intros [= <- <- <-].
           ++ destruct IHr as (p & Hn & Hfree & ->). exists (RIGHT :: p). done.
           ++ by subst r1.
        -- by intros [= <- <- <-].
    + destruct r as [r0|]; simpl in IHr.
      * destruct (insert_at m e (Some (side_str sd)) false r0)
          as [[okr r1] outr] eqn:Er.
        specialize (IHr _ _ _ _ _ (norm_side_str sd) Er).
        destruct okr; intros [= <- <- <-].
        -- destruct IHr as (p & Hn & Hfree & ->). exists (RIGHT :: p). done.
        -- by subst r1.
      * by intros [= <- <- <-].
Qed.

(** ** Positions, and what [attach] changes *)

Lemma node_at_app t p q :
  node_at t (p ++ q) = node_at t p ≫= fun c => node_at c q.
Proof.
  revert t. induction p as [|sd p IH]; intros t; simpl; [done|].
  destruct (getattr t sd); [apply IH | done].
Qed.

Lemma node_at_snoc t p sd :
  node_at t (p ++ [sd]) = node_at t p ≫= fun c => getattr c sd.
Proof.
  rewrite node_at_app. destruct (node_at t p) as [c|]; simpl; [|done].
  by destruct (getattr c sd).
Qed.

Lemma node_at_None_app t p q : node_at t p = None -> node_at t (p ++ q) = None.
Proof. intros H. by rewrite node_at_app, H. Qed.

Lemma getattr_setattr t sd c d :
  getattr (setattr t sd c) d = if decide (sd = d) then Some c else getattr t d.
Proof. by destruct sd, d. Qed.

Lemma name_setattr t sd c : name (setattr t sd c) = name t.
Proof. by destruct sd. Qed.

Lemma getattr_attach_cons t d p sd c d' :
  getattr (attach t (d :: p) sd c) d'
  = if decide (d = d') then (fun x => attach x p sd c) <$> getattr t d
    else getattr t d'.
Proof. destruct d, d'; simpl; try done; by case_match. Qed.

Lemma name_attach t p sd c : name (attach t p sd c) = name t.
Proof. destruct p as [|[] p]; simpl; [apply name_setattr|done..]. Qed.

(** Below the new node there is nothing, and nothing else moved. *)
Lemma attach_name_at t p sd e q :
  is_Some (node_at t p) ->
  node_at t (p ++ [sd]) = None ->
  name_at (attach t p sd (new_node e)) q
  = if decide (q = p ++ [sd]) then Some e else name_at t q.
Proof.
  unfold name_at. revert t q.
  induction p as [|d p IH]; intros t q Hp Hfree.
  - simpl in Hfree. destruct (getattr t sd) eqn:Hget; [done|].
    destruct q as [|d q]; simpl attach; simpl app.
    + case_decide; [done|]. simpl. by rewrite name_setattr.
    + cbn [node_at]. rewrite getattr_setattr.
      destruct (decide (sd = d)) as [<-|Hd].
      * rewrite Hget. destruct q as [|[] q]; simpl; by case_decide.
      * case_decide; [congruence|done].
  - simpl in Hp, Hfree.
    destruct (getattr t d) as [c|] eqn:Hget; [|by destruct Hp].
    destruct q as [|d' q]; simpl app.
    + case_decide; [done|]. cbn [node_at fmap option_fmap option_map].
      by rewrite name_attach.
    + cbn [node_at]. rewrite getattr_attach_cons.
      destruct (decide (d = d')) as [<-|Hd].
      * rewrite Hget. simpl. rewrite (IH c q Hp Hfree).
        repeat case_decide; congruence.
      * case_decide; [congruence|done].
Qed.

Lemma size_setattr t sd c :
  getattr t sd = None -> size (setattr t sd c) = size t + size c.
Proof. destruct t as [n l r], sd; simpl; intros ->; lia. Qed.

Lemma attach_size t p sd c :
  is_Some (node_at t p) ->
  node_at t (p ++ [sd]) = None ->
  size (attach t p sd c) = size t + size c.
Proof.
  revert t. induction p as [|d p IH]; intros t Hp Hfree.
  - simpl in *. destruct (getattr t sd) eqn:Hget; [done|].
    by apply size_setattr.
  - simpl in Hp, Hfree.
    destruct (getattr t d) as [c'|] eqn:Hget; [|by destruct Hp].
    specialize (IH c' Hp Hfree).
    destruct t as [n l r], d; simpl in *; subst; simpl; rewrite IH; lia.
Qed.

(** [positions] lists every node once, in depth-first order. *)

Lemma elem_of_positions t p : p ∈ positions t <-> is_Some (node_at t p).
Proof.
  revert p. induction t as [n l r IHl IHr] using node_ind; intros p.
  simpl positions. rewrite elem_of_cons, elem_of_app.
  destruct p as [|[] p]; simpl.
  - split; [by eauto | by left].
  - destruct l as [l0|]; simpl in *.
    + rewrite <- IHl, list_elem_of_fmap. split.
      * intros [[=]|[(q & [= ->] & Hq)|Hr]]; [done|].
        destruct r; [|by apply elem_of_nil in Hr].
        apply list_elem_of_fmap in Hr as (q & [=] & _).
      * intros Hp. right. left. eauto.
    + split; [|by intros []].
      intros [[=]|[Hl|Hr]]; [by apply elem_of_nil in Hl|].
      destruct r; [|by apply elem_of_nil in Hr].
      apply list_elem_of_fmap in Hr as (q & [=] & _).
  - destruct r as [r0|]; simpl in *.
    + rewrite <- IHr, list_elem_of_fmap. split.
      * intros [[=]|[Hl|(q & [= ->] & Hq)]]; [|done].
        destruct l; [|by apply elem_of_nil in Hl].
        apply list_elem_of_fmap in Hl as (q & [=] & _).
      * intros Hp. right. right. eauto.
    + split; [|by intros []].
      intros [[=]|[Hl|Hr]]; [|by apply elem_of_nil in Hr].
      destruct l; [|by apply elem_of_nil in Hl].
      apply list_elem_of_fmap in Hl as (q & [=] & _).
Qed.

Lemma length_positions t : length (positions t) = size t.
Proof.
  induction t as [n l r IHl IHr] using node_ind. simpl.
  rewrite length_app. destruct l, r; simpl in *;
    rewrite ?length_fmap; lia.
Qed.

Lemma positions_sorted t : StronglySorted before (positions t).
Proof.
  induction t as [n l r IHl IHr] using node_ind. simpl positions.
  apply StronglySorted_cons. split.
  { apply Forall_app. split; [destruct l|destruct r]; simpl;
      try apply Forall_nil_2; apply Forall_fmap, Forall_true; done. }
  apply StronglySorted_app. split_and!.
  - intros p q Hp Hq.
    destruct l; [|by apply elem_of_nil in Hp].
    destruct r; [|by apply elem_of_nil in Hq].
    apply list_elem_of_fmap in Hp as (p' & -> & _).
    apply list_elem_of_fmap in Hq as (q' & -> & _). done.
  - destruct l as [l0|]; simpl in *; [|constructor].
    by apply (StronglySorted_fmap _ before before).
  - destruct r as [r0|]; simpl in *; [|constructor].
    by apply (StronglySorted_fmap _ before before).
Qed.

Lemma before_irrefl p : ¬ before p p.
Proof. unfold before. induction p as [|[] p IH]; simpl; auto. Qed.

Lemma positions_NoDup t : NoDup (positions t).
Proof.
  pose proof (positions_sorted t) as H.
  induction H as [|p ps _ IH Hall]; constructor; [|done].
  intros Hin. rewrite Forall_forall in Hall.
  by apply (before_irrefl p), Hall.
Qed.

(** ** What [print_tree] prints *)

Lemma print_node_positions t level :
  print_node t level = line_at t level <$> positions t.
Proof.
  revert level. induction t as [n l r IHl IHr] using node_ind; intros level.
  simpl print_node. simpl positions. rewrite fmap_cons, fmap_app.
  unfold line_at at 1. simpl. rewrite Nat.add_0_r. f_equal. f_equal.
  - destruct l as [l0|]; simpl in *; [|done].
    rewrite IHl, <- list_fmap_compose. apply list_fmap_ext.
    intros _ p _. unfold line_at. simpl. f_equal. lia.
  - destruct r as [r0|]; simpl in *; [|done].
    rewrite IHr, <- list_fmap_compose. apply list_fmap_ext.
    intros _ p _. unfold line_at. simpl. f_equal. lia.
Qed.

Lemma print_node_lines t :
  Forall2 (fun ev p => exists nd,
             node_at t p = Some nd /\ ev = NodeLine (length p) (name nd))
    (print_node t 0) (positions t).
Proof.
  rewrite print_node_positions. apply Forall2_fmap_l, Forall_Forall2_diag.
  apply Forall_forall. intros p [nd Hnd]%elem_of_positions.
  exists nd. split; [done|]. unfold line_at, name_at. by rewrite Hnd.
Qed.

Lemma length_print_node t level : length (print_node t level) = size t.
Proof. by rewrite print_node_positions, length_fmap, length_positions. Qed.

Lemma print_node_names t level : omap who_of (print_node t level) = names t.
Proof.
  revert level. induction t as [n l r IHl IHr] using node_ind; intros level.
  simpl. rewrite omap_app. f_equal. f_equal.
  - destruct l; simpl in *; [apply IHl | done].
  - destruct r; simpl in *; [apply IHr | done].
Qed.

Lemma names_attach t p sd c :
  is_Some (node_at t p) ->
  node_at t (p ++ [sd]) = None ->
  names (attach t p sd c) ≡ₚ names c ++ names t.
Proof.
  revert t. induction p as [|d p IH]; intros t Hp Hfree.
  - simpl in *. destruct (getattr t sd) eqn:Hget; [done|].
    destruct t as [n l r], sd; simpl in *; subst; simpl; rewrite ?app_nil_r.
    + by rewrite <- Permutation_middle.
    + by rewrite (Permutation_app_comm (names c)).
  - simpl in Hp, Hfree.
    destruct (getattr t d) as [c'|] eqn:Hget; [|by destruct Hp].
    specialize (IH c' Hp Hfree).
    destruct t as [n l r], d; simpl in *; subst; simpl; rewrite IH.
    + rewrite <- Permutation_middle. by rewrite (assoc_L (++)).
    + rewrite <- Permutation_middle. f_equiv.
      rewrite !(assoc_L (++)). f_equiv. apply Permutation_app_comm.
Qed.

(** ** The top-level call *)

Lemma insert_effect self m e s ok self' out :
  insert self m e s = (ok, self', out) ->
  if ok
  then exists t sd p,
         root self = Some t /\ norm_side s = Some sd
         /\ name_at t p = Some m /\ node_at t (p ++ [sd]) = None
         /\ root self' = Some (attach t p sd (new_node e))
  else self' = self.
Proof.
  unfold insert. destruct (norm_side s) as [sd|] eqn:Hs.
  - destruct self as [[t|]]; simpl.
    + destruct (insert_at m e s true t) as [[b t1] o] eqn:E.
      intros [= <- <- <-].
      pose proof (insert_at_effect _ _ _ _ _ _ _ _ _ Hs E) as H.
      destruct b.
      * destruct H as (p & Hn & Hfree & ->). by exists t, sd, p.
      * by subst t1.
    + by intros [= <- <- <-].
  - by intros [= <- <- <-].
Qed.

Lemma name_at_is_Some t p n : name_at t p = Some n -> is_Some (node_at t p).
Proof. unfold name_at. destruct (node_at t p); [eauto | done]. Qed.

(** ** The first node called [manager_name] *)

Lemma find_app {A} (f : A -> bool) (l1 l2 : list A) :
  List.find f (l1 ++ l2)
  = match List.find f l1 with Some x => Some x | None => List.find f l2 end.
Proof. induction l1 as [|x l1 IH]; simpl; [done|]. by destruct (f x). Qed.

Lemma find_fmap {A B} (f : B -> bool) (g : A -> B) (l : list A) :
  List.find f (g <$> l) = g <$> List.find (f ∘ g) l.
Proof. induction l as [|x l IH]; simpl; [done|]. by destruct (f (g x)). Qed.

Lemma first_match_unfold m t :
  first_match m t
  = if String.eqb (name t) m then Some []
    else match left t ≫= first_match m with
         | Some p => Some (LEFT :: p)
         | None => cons RIGHT <$> (right t ≫= first_match m)
         end.
Proof.
  destruct t as [n l r]. unfold first_match at 1. simpl.
  destruct (String.eqb_spec n m) as [->|Hne].
  - by rewrite bool_decide_eq_true_2.
  - rewrite bool_decide_eq_false_2 by (cbv; congruence).
    rewrite find_app. destruct l as [l0|]; simpl.
    + rewrite find_fmap. unfold first_match at 1.
      destruct (List.find _ (positions l0)); simpl; [done|].
      destruct r as [r0|]; simpl; [|done]. by rewrite find_fmap.
    + destruct r as [r0|]; simpl; [|done]. by rewrite find_fmap.
Qed.

Lemma before_asym p q : before p q -> before q p -> False.
Proof.
  unfold before. revert q.
  induction p as [|[] p IH]; intros [|[] q]; simpl; eauto.
Qed.

(** [first_match] returns a node called [m] that no other such node
    precedes in the depth-first order. *)
Lemma first_match_Some m t p :
  first_match m t = Some p ->
  name_at t p = Some m
  /\ forall q, name_at t q = Some m -> q = p \/ before p q.
Proof.
  unfold first_match. intros H. split.
  { apply List.find_some in H as [_ H]. by apply bool_decide_eq_true in H. }
  intros q Hq.
  assert (q ∈ positions t) as Hin
    by (apply elem_of_positions; eapply name_at_is_Some, Hq).
  pose proof (positions_sorted t) as Hs.
  induction Hs as [|x l _ IH Hall]; simpl in H; [by apply elem_of_nil in Hin|].
  case_bool_decide as Hx.
  - injection H as ->. apply elem_of_cons in Hin as [->|Hin]; [by left|].
    right. rewrite Forall_forall in Hall. by apply Hall.
  - apply elem_of_cons in Hin as [->|Hin]; [done|]. by apply IH.
Qed.

Lemma first_match_None m t :
  first_match m t = None <-> forall p, name_at t p <> Some m.
Proof.
  unfold first_match. split.
  - intros H p Hp.
    assert (p ∈ positions t) as Hin
      by (apply elem_of_positions; eapply name_at_is_Some, Hp).
    apply list_elem_of_In in Hin.
    pose proof (List.find_none _ _ H p Hin) as Hf. simpl in Hf.
    by apply bool_decide_eq_false in Hf.
  - intros H. destruct (List.find _ _) as [p|] eqn:E; [|done].
    apply List.find_some in E as [_ E]. apply bool_decide_eq_true in E.
    by destruct (H p).
Qed.

(** ** The search of [insert] *)

(** The manager is nowhere: every frame returns [False], nothing changes,
    and the outermost frame alone prints the message of line 74. *)
Lemma insert_at_absent m e s sd b t :
  norm_side s = Some sd ->
  first_match m t = None ->
  insert_at m e s b t
  = (false, t, if b then [ManagerNotFound m] else []).
Proof.
  revert s b. induction t as [n l r IHl IHr] using node_ind; intros s b Hs.
  rewrite first_match_unfold. simpl. rewrite Hs.
  destruct (String.eqb n m); [done|].
  destruct l as [l|]; simpl in *.
  - destruct (first_match m l) eqn:El; [done|].
    rewrite (IHl _ false (norm_side_str sd) eq_refl).
    destruct r as [r|]; simpl in *; [|done].
    destruct (first_match m r) eqn:Er; [done|].
    by rewrite (IHr _ false (norm_side_str sd) eq_refl).
  - destruct r as [r|]; simpl in *; [|done].
    destruct (first_match m r) eqn:Er; [done|].
    by rewrite (IHr _ false (norm_side_str sd) eq_refl).
Qed.

(** The first node called [m] has the requested slot free: the new node
    goes there and nothing is printed. *)
Lemma insert_at_first_free m e s sd b t p :
  norm_side s = Some sd ->
  first_match m t = Some p ->
  node_at t (p ++ [sd]) = None ->
  insert_at m e s b t = (true, attach t p sd (new_node e), []).
Proof.
  revert s b p.
  induction t as [n l r IHl IHr] using node_ind; intros s b p Hs.
  rewrite first_match_unfold. simpl insert_at. rewrite Hs.
  cbn [name left right].
  destruct (String.eqb n m).
  { intros [= <-] Hfree. simpl in Hfree. by destruct (getattr _ sd). }
  destruct l as [l|]; cbn [mbind option_bind from_option] in *.
  - destruct (first_match m l) as [pl|] eqn:El.
    + intros [= <-] Hfree. simpl in Hfree.
      by rewrite (IHl _ false _ (norm_side_str sd) eq_refl Hfree).
    + rewrite (insert_at_absent _ _ _ _ false _ (norm_side_str sd) El).
      destruct r as [r|]; cbn [fmap option_fmap option_map mbind option_bind
                                 from_option] in *; [|done].
      destruct (first_match m r) as [pr|] eqn:Er; [|done].
      intros [= <-] Hfree. simpl in Hfree.
      by rewrite (IHr _ false _ (norm_side_str sd) eq_refl Hfree).
  - destruct r as [r|]; cbn [fmap option_fmap option_map mbind option_bind
                               from_option] in *; [|done].
    destruct (first_match m r) as [pr|] eqn:Er; [|done].
    intros [= <-] Hfree. simpl in Hfree.
    by rewrite (IHr _ false _ (norm_side_str sd) eq_refl Hfree).
Qed.

(** The current node is called [m] and its slot is taken: line 58. *)
Lemma insert_at_here_occupied m e s sd b t c :
  norm_side s = Some sd ->
  name t = m ->
  getattr t sd = Some c ->
  insert_at m e s b t = (false, t, [SlotOccupied m sd (name c)]).
Proof.
  intros Hs <- Hget. destruct t as [n l r]. simpl in *.
  by rewrite Hs, String.eqb_refl, Hget.
Qed.

(** The message of line 74 is printed by the outermost frame only, when it
    returns [False] on a root that is not called [m]. *)
Lemma insert_at_not_found_lines m e s sd b t ok t' out :
  norm_side s = Some sd ->
  insert_at m e s b t = (ok, t', out) ->
  List.filter is_ManagerNotFound out
  = if negb ok && b && negb (String.eqb (name t) m)
    then [ManagerNotFound m] else [].
Proof.
  revert s b ok t' out.
  induction t as [n l r IHl IHr] using node_ind; intros s b ok t' out Hs.
  simpl. rewrite Hs.
  destruct (String.eqb n m).
  { destruct (getattr _ sd); intros [= <- <- <-]; simpl;
      by rewrite ?andb_false_r. }
  pose proof (norm_side_str sd) as Hsd.
  frame_cases m e sd l r; intros [= <- <- <-];
    repeat match goal with
      | IH : forall s b ok t' out, _ -> insert_at _ _ s b ?x = _ -> _,
        E : insert_at _ _ _ false ?x = _ |- _ =>
          apply (IH _ _ _ _ _ Hsd) in E; simpl in E
      end;
    rewrite ?List.filter_app, ?andb_true_r; simpl;
    repeat match goal with E : List.filter _ _ = _ |- _ => rewrite E end;
    by destruct b.
Qed.

(** ** Trees only grow *)

Lemma extends_refl t : extends t t.
Proof. by intros p n. Qed.

Lemma extends_trans t1 t2 t3 : extends t1 t2 -> extends t2 t3 -> extends t1 t3.
Proof. intros H12 H23 p n Hp. by apply H23, H12. Qed.

Lemma extends_attach t p sd e :
  is_Some (node_at t p) -> node_at t (p ++ [sd]) = None ->
  extends t (attach t p sd (new_node e)).
Proof.
  intros Hp Hfree q n Hq. rewrite attach_name_at by done.
  case_decide as Heq; [|done]. subst q.
  unfold name_at in Hq. by rewrite Hfree in Hq.
Qed.

Lemma insert_extends self m e s ok self' out t :
  insert self m e s = (ok, self', out) ->
  root self = Some t ->
  exists t', root self' = Some t' /\ extends t t'.
Proof.
  intros H Ht. apply insert_effect in H. destruct ok.
  - destruct H as (t0 & sd & p & Ht0 & _ & Hn & Hfree & Ht').
    rewrite Ht in Ht0. injection Ht0 as <-.
    eexists. split; [done|].
    eapply extends_attach; eauto using name_at_is_Some.
  - subst self'. exists t. eauto using extends_refl.
Qed.

Lemma run_extends ops self self' out t :
  run self ops = (self', out) ->
  root self = Some t ->
  exists t', root self' = Some t' /\ extends t t'.
Proof.
  revert self self' out t.
  induction ops as [|op ops IH]; intros self self' out t; simpl.
  - intros [= <- <-] Ht. exists t. eauto using extends_refl.
  - destruct (step self op) as [self1 out1] eqn:E1.
    destruct (run self1 ops) as [self2 out2] eqn:E2.
    intros [= <- <-] Ht.
    assert (exists t1, root self1 = Some t1 /\ extends t t1)
      as (t1 & Ht1 & Hext).
    { destruct op as [c|]; simpl in E1.
      - destruct (insert self (manager c) (employee c) (side_arg c))
          as [[b s1] o1] eqn:Ei.
        injection E1 as <- <-. eapply insert_extends; eauto.
      - injection E1 as <- <-. exists t. eauto using extends_refl. }
    destruct (IH _ _ _ _ E2 Ht1) as (t2 & Ht2 & Hext2).
    exists t2. eauto using extends_trans.
Qed.

(** ** Sequences of successful calls *)

Lemma insert_seq_success calls t self' bs out :
  insert_seq (mkTree (Some t)) calls = (self', bs, out) ->
  Forall (eq true) bs ->
  exists t', root self' = Some t'
    /\ size t' = size t + length calls
    /\ names t' ≡ₚ (employee <$> calls) ++ names t.
Proof.
  revert t self' bs out.
  induction calls as [|c calls IH]; intros t self' bs out; simpl.
  - intros [= <- <- <-] _. exists t. split_and!; [done|lia|done].
  - destruct (insert _ (manager c) (employee c) (side_arg c))
      as [[b self1] out1] eqn:E1.
    destruct (insert_seq self1 calls) as [[self2 bs2] out2] eqn:E2.
    intros [= <- <- <-] Hall. apply Forall_cons in Hall as [<- Hall].
    apply insert_effect in E1 as (t0 & sd & p & [= <-] & _ & Hn & Hfree & Ht1).
    destruct self1 as [r1]. simpl in Ht1. subst r1.
    apply name_at_is_Some in Hn.
    destruct (IH _ _ _ _ E2 Hall) as (t' & Ht' & Hsize & Hperm).
    exists t'. split_and!; [done|..].
    + rewrite Hsize, attach_size by done. simpl. lia.
    + rewrite Hperm, names_attach by done. simpl.
      by rewrite <- Permutation_middle.
Qed.

(** ** Top-level corollaries *)

Lemma insert_norm self m e s1 s2 :
  norm_side s1 = norm_side s2 -> insert self m e s1 = insert self m e s2.
Proof.
  intros H. unfold insert. rewrite H.
  destruct (norm_side s2) eqn:E; [|done]. destruct (root self); [|done].
  by rewrite (insert_at_norm _ _ s1 s2) by congruence.
Qed.

Lemma insert_invalid_side self m e s :
  norm_side s = None -> insert self m e s = (false, self, [InvalidSide]).
Proof. intros H. unfold insert. by rewrite H. Qed.

Lemma insert_first_free t m e s sd p :
  norm_side s = Some sd ->
  first_match m t = Some p ->
  node_at t (p ++ [sd]) = None ->
  insert (mkTree (Some t)) m e s
  = (true, mkTree (Some (attach t p sd (new_node e))), []).
Proof.
  intros Hs Hp Hfree. unfold insert. rewrite Hs. simpl.
  by rewrite (insert_at_first_free _ _ _ _ _ _ _ Hs Hp Hfree).
Qed.

(** No node is called [m]: the call fails and prints line 74 once. *)
Lemma insert_absent t m e s sd :
  norm_side s = Some sd ->
  (forall p, name_at t p <> Some m) ->
  insert (mkTree (Some t)) m e s
  = (false, mkTree (Some t), [ManagerNotFound m]).
Proof.
  intros Hs Hno. unfold insert. rewrite Hs. simpl.
  apply first_match_None in Hno.
  by rewrite (insert_at_absent _ _ _ _ _ _ Hs Hno).
Qed.

(** Line 74 is never printed twice by one call. *)
Lemma insert_not_found_once self m e s ok self' out :
  insert self m e s = (ok, self', out) ->
  length (List.filter is_ManagerNotFound out) <= 1.
Proof.
  unfold insert. destruct (norm_side s) as [sd|] eqn:Hs.
  - destruct (root self) as [t|].
    + destruct (insert_at m e s true t) as [[b t1] o] eqn:E.
      intros [= <- <- <-].
      rewrite (insert_at_not_found_lines _ _ _ _ _ _ _ _ _ Hs E).
      case_match; simpl; lia.
    + intros [= <- <- <-]. simpl. lia.
  - intros [= <- <- <-]. simpl. lia.
Qed.

(** ** The object store holds a tree *)

Lemma is_tree_unfold h r t fp :
  Store.is_tree h r t fp <->
  exists o fl fr,
    h !! r = Some o /\ Store.obj_name o = name t /\ fp = r :: fl ++ fr
    /\ match Store.obj_left o, left t with
       | Some a, Some l => Store.is_tree h a l fl
       | None, None => fl = []
       | _, _ => False
       end
    /\ match Store.obj_right o, right t with
       | Some a, Some l => Store.is_tree h a l fr
       | None, None => fr = []
       | _, _ => False
       end.
Proof. by destruct t. Qed.

Lemma is_tree_allocated h r t fp x :
  Store.is_tree h r t fp -> x ∈ fp -> is_Some (h !! x).
Proof.
  revert r fp. induction t as [n l r' IHl IHr] using node_ind; intros r fp.
  rewrite is_tree_unfold. intros (o & fl & fr & Ho & _ & -> & Hl & Hr).
  simpl in *.
  rewrite elem_of_cons, elem_of_app. intros [->|[Hx|Hx]]; [by eauto|..].
  - destruct (Store.obj_left o), l; simpl in *; try done; eauto.
    subst fl. by apply elem_of_nil in Hx.
  - destruct (Store.obj_right o), r'; simpl in *; try done; eauto.
    subst fr. by apply elem_of_nil in Hx.
Qed.

Lemma is_tree_frame h h' r t fp :
  Store.is_tree h r t fp ->
  (forall x, x ∈ fp -> h' !! x = h !! x) ->
  Store.is_tree h' r t fp.
Proof.
  revert r fp. induction t as [n l r' IHl IHr] using node_ind; intros r fp.
  rewrite !is_tree_unfold. intros (o & fl & fr & Ho & Hn & -> & Hl & Hr) Hsame.
  simpl in *. exists o, fl, fr. split_and!; try done.
  - rewrite Hsame; [done|]. by left.
  - destruct (Store.obj_left o), l; simpl in *; try done.
    apply IHl; [done|]. intros x Hx. apply Hsame. set_solver.
  - destruct (Store.obj_right o), r'; simpl in *; try done.
    apply IHr; [done|]. intros x Hx. apply Hsame. set_solver.
Qed.

Lemma is_tree_length h r t fp : Store.is_tree h r t fp -> length fp = size t.
Proof.
  revert r fp. induction t as [n l r' IHl IHr] using node_ind; intros r fp.
  rewrite is_tree_unfold. intros (o & fl & fr & Ho & Hn & -> & Hl & Hr).
  simpl in *. rewrite length_app. f_equal. f_equal.
  - destruct (Store.obj_left o), l; simpl in *; try done; [eauto|by subst].
  - destruct (Store.obj_right o), r'; simpl in *; try done; [eauto|by subst].
Qed.

Lemma height_le_size t : height t <= size t.
Proof.
  induction t as [n l r IHl IHr] using node_ind.
  destruct l, r; simpl in *; lia.
Qed.

(** ** The frames of [Store.insert] and of [insert_at] agree *)

Lemma is_tree_children h r t fp :
  Store.is_tree h r t fp <->
  exists o fl fr,
    h !! r = Some o /\ Store.obj_name o = name t /\ fp = r :: fl ++ fr
    /\ is_child h (Store.obj_left o) (left t) fl
    /\ is_child h (Store.obj_right o) (right t) fr.
Proof. apply is_tree_unfold. Qed.

Lemma is_child_allocated h oa ot f x :
  is_child h oa ot f -> x ∈ f -> is_Some (h !! x).
Proof.
  destruct oa, ot; simpl; try done; [apply is_tree_allocated|].
  intros ->. by intros ?%elem_of_nil.
Qed.

Lemma is_child_frame h h' oa ot f :
  is_child h oa ot f ->
  (forall x, x ∈ f -> h' !! x = h !! x) ->
  is_child h' oa ot f.
Proof. destruct oa, ot; simpl; try done. apply is_tree_frame. Qed.

Lemma insert_at_unfold m e s sd b t :
  norm_side s = Some sd ->
  insert_at m e s b t
  = if String.eqb (name t) m then
      match getattr t sd with
      | Some target_child =>
          (false, t, [SlotOccupied m sd (name target_child)])
      | None => (true, setattr t sd (new_node e), [])
      end
    else
      let '(okl, l', outl) := insert_child m e sd (left t) in
      if okl then (true, mkNode (name t) l' (right t), outl)
      else
        let '(okr, r', outr) := insert_child m e sd (right t) in
        if okr then (true, mkNode (name t) l' r', outl ++ outr)
        else (false, mkNode (name t) l' r',
              outl ++ outr ++ (if b then [ManagerNotFound m] else [])).
Proof. intros Hs. destruct t as [n l r]. simpl. by rewrite Hs. Qed.

Lemma store_insert_unfold fuel h rt m e s sd r o :
  norm_side s = Some sd ->
  h !! r = Some o ->
  Store.insert (S fuel) h (Some rt) m e s (Some r)
  = if String.eqb (Store.obj_name o) m then
      match Store.obj_getattr o sd with
      | Some target_child =>
          child ← h !! target_child;
          Some (false, h, [SlotOccupied m sd (Store.obj_name child)])
      | None =>
          Some (true,
                <[r := Store.obj_setattr o sd (fresh (dom h))]>
                  (<[fresh (dom h) := Store.new_object e]> h),
                [])
      end
    else
      '(okl, h1, outl) ← store_insert_child fuel h rt m e sd (Store.obj_left o);
      if (okl : bool) then Some (true, h1, outl)
      else
        node1 ← h1 !! r;
        '(okr, h2, outr) ←
          store_insert_child fuel h1 rt m e sd (Store.obj_right node1);
        if (okr : bool) then Some (true, h2, outl ++ outr)
        else Some (false, h2,
                   outl ++ outr
                     ++ (if decide (r = rt) then [ManagerNotFound m] else [])).
Proof. intros Hs Ho. simpl. rewrite Hs. simpl. by rewrite Ho. Qed.

Lemma child_of_node_refined m e sd rt oc :
  from_option (node_refined m e sd rt) True oc -> child_refined m e sd rt oc.
Proof.
  intros IH fuel h oa f ok oc' out Hc Hnd Hrt Hfuel.
  destruct oc as [c|], oa as [a|]; simpl in *; try done.
  - destruct (insert_at m e (Some (side_str sd)) false c)
      as [[b c1] o] eqn:E.
    intros [= <- <- <-].
    destruct (IH fuel h _ false a f _ _ _ Hc Hnd Hrt Hfuel (norm_side_str sd) E)
      as (h' & Hins & Hg).
    exists h'. split_and!; [done|done|].
    intros ->. f_equal.
    by apply (insert_at_effect _ _ _ _ _ _ _ _ _ (norm_side_str sd)) in E.
  - intros [= <- <- <-]. by exists h.
Qed.

Lemma fresh_not_allocated (h : Store.heap) : ¬ is_Some (h !! fresh (dom h)).
Proof. rewrite <- elem_of_dom. apply is_fresh. Qed.

(** A new object in an empty slot of the object at [r]. *)
Lemma store_attach_here h r o t sd e fl fr :
  h !! r = Some o ->
  Store.obj_name o = name t ->
  is_child h (Store.obj_left o) (left t) fl ->
  is_child h (Store.obj_right o) (right t) fr ->
  NoDup (r :: fl ++ fr) ->
  getattr t sd = None ->
  let h' := <[r := Store.obj_setattr o sd (fresh (dom h))]>
              (<[fresh (dom h) := Store.new_object e]> h) in
  grown h (r :: fl ++ fr) true h'
    (Store.is_tree h' r (setattr t sd (new_node e))).
Proof.
  intros Ho Hn Hl Hr Hnd Hfree h'.
  pose proof (fresh_not_allocated h) as Hfresh.
  assert (r <> fresh (dom h)) as Hne
    by (intros Heq; apply Hfresh; rewrite <- Heq; eauto).
  assert (forall x, is_Some (h !! x) -> x <> r -> h' !! x = h !! x) as Hsame.
  { intros x Hx Hxr. unfold h'. rewrite lookup_insert_ne by done.
    apply lookup_insert_ne. intros Heq. apply Hfresh. by rewrite Heq. }
  assert (Store.is_tree h' (fresh (dom h)) (new_node e) [fresh (dom h)]) as Hnew.
  { apply is_tree_children. exists (Store.new_object e), [], [].
    split_and!; try done. unfold h'.
    rewrite lookup_insert_ne by done. apply lookup_insert_eq. }
  apply NoDup_cons in Hnd as [Hr_notin Hnd].
  apply NoDup_app in Hnd as (Hndl & Hdisj & Hndr).
  rewrite not_elem_of_app in Hr_notin. destruct Hr_notin as [Hrl Hrr].
  assert (is_child h' (Store.obj_left o) (left t) fl) as Hl'.
  { eapply is_child_frame; [done|]. intros x Hx. apply Hsame.
    - exact (is_child_allocated _ _ _ _ _ Hl Hx).
    - by intros ->. }
  assert (is_child h' (Store.obj_right o) (right t) fr) as Hr'.
  { eapply is_child_frame; [done|]. intros x Hx. apply Hsame.
    - exact (is_child_allocated _ _ _ _ _ Hr Hx).
    - by intros ->. }
  assert (fresh (dom h) ∉ fl) as Hfl
    by (intros Hx; exact (Hfresh (is_child_allocated _ _ _ _ _ Hl Hx))).
  assert (fresh (dom h) ∉ fr) as Hfr
    by (intros Hx; exact (Hfresh (is_child_allocated _ _ _ _ _ Hr Hx))).
  assert (h' !! r = Some (Store.obj_setattr o sd (fresh (dom h)))) as Hr_new
    by apply lookup_insert_eq.
  clearbody h'.
  destruct sd; simpl in Hfree.
  - destruct (left t) eqn:Hlt; [done|].
    destruct (Store.obj_left o) eqn:Hlo; [done|]. simpl in Hl. subst fl.
    exists (r :: [fresh (dom h)] ++ fr). split_and!.
    + apply is_tree_children.
      exists (Store.obj_setattr o LEFT (fresh (dom h))), [fresh (dom h)], fr.
      split_and!; done.
    + apply NoDup_cons. split; [set_solver|].
      apply NoDup_cons. split; [set_solver|done].
    + set_solver.
    + intros x Hx Hnot. apply Hsame; [done|set_solver].
  - destruct (right t) eqn:Hrt; [done|].
    destruct (Store.obj_right o) eqn:Hro; [done|]. simpl in Hr. subst fr.
    exists (r :: fl ++ [fresh (dom h)]). split_and!.
    + apply is_tree_children.
      exists (Store.obj_setattr o RIGHT (fresh (dom h))), fl, [fresh (dom h)].
      split_and!; done.
    + apply NoDup_cons. split; [set_solver|].
      apply NoDup_app. split_and!; [done|set_solver|apply NoDup_singleton].
    + set_solver.
    + intros x Hx Hnot. apply Hsame; [done|set_solver].
Qed.

(** A call that grew the left subtree of the object at [r] grew the tree
    at [r]; likewise for the right subtree. *)
Lemma store_grow_left h h1 r o n l l' rc fl fr :
  h !! r = Some o ->
  Store.obj_name o = n ->
  is_child h (Store.obj_left o) l fl ->
  is_child h (Store.obj_right o) rc fr ->
  NoDup (r :: fl ++ fr) ->
  grown h fl true h1 (is_child h1 (Store.obj_left o) l') ->
  grown h (r :: fl ++ fr) true h1 (Store.is_tree h1 r (mkNode n l' rc)).
Proof.
  intros Ho Hn Hl Hr Hnd (fl' & Hl' & Hndl' & Hsub & Hsame).
  pose proof (fresh_not_allocated h) as Hfresh.
  apply NoDup_cons in Hnd as [Hr_notin Hnd].
  apply NoDup_app in Hnd as (Hndl & Hdisj & Hndr).
  rewrite not_elem_of_app in Hr_notin. destruct Hr_notin as [Hrl Hrr].
  assert (forall x, x ∈ fr -> x ∉ fl') as Hdisj'.
  { intros x Hx [Hxl| ->]%Hsub; [by apply (Hdisj x)|].
    exact (Hfresh (is_child_allocated _ _ _ _ _ Hr Hx)). }
  assert (r ∉ fl') as Hrl'.
  { intros [Hxl|Heq]%Hsub; [done|]. apply Hfresh. rewrite <- Heq. eauto. }
  exists (r :: fl' ++ fr). split_and!.
  - apply is_tree_children. exists o, fl', fr. split_and!; try done.
    + rewrite Hsame; eauto.
    + eapply is_child_frame; [exact Hr|]. intros x Hx. apply Hsame.
      * exact (is_child_allocated _ _ _ _ _ Hr Hx).
      * intros Hxl. by apply (Hdisj x).
  - apply NoDup_cons. split; [rewrite not_elem_of_app; by split|].
    apply NoDup_app. split_and!; [done| |done].
    intros x Hx Hxr. by apply (Hdisj' x).
  - intros x. rewrite !elem_of_cons, !elem_of_app.
    intros [->|[Hx|Hx]]; [by left; left| |by left; right; right].
    destruct (Hsub x Hx) as [?| ->]; [left; right; by left|by right].
  - intros x Hx Hnot. apply Hsame; [done|].
    intros Hxl. apply Hnot. rewrite elem_of_cons, elem_of_app. auto.
Qed.

Lemma store_grow_right h h1 r o n l rc rc' fl fr :
  h !! r = Some o ->
  Store.obj_name o = n ->
  is_child h (Store.obj_left o) l fl ->
  is_child h (Store.obj_right o) rc fr ->
  NoDup (r :: fl ++ fr) ->
  grown h fr true h1 (is_child h1 (Store.obj_right o) rc') ->
  grown h (r :: fl ++ fr) true h1 (Store.is_tree h1 r (mkNode n l rc')).
Proof.
  intros Ho Hn Hl Hr Hnd (fr' & Hr' & Hndr' & Hsub & Hsame).
  pose proof (fresh_not_allocated h) as Hfresh.
  apply NoDup_cons in Hnd as [Hr_notin Hnd].
  apply NoDup_app in Hnd as (Hndl & Hdisj & Hndr).
  rewrite not_elem_of_app in Hr_notin. destruct Hr_notin as [Hrl Hrr].
  assert (forall x, x ∈ fl -> x ∉ fr') as Hdisj'.
  { intros x Hx [Hxl| ->]%Hsub; [by apply (Hdisj x)|].
    exact (Hfresh (is_child_allocated _ _ _ _ _ Hl Hx)). }
  assert (r ∉ fr') as Hrl'.
  { intros [Hxl|Heq]%Hsub; [done|]. apply Hfresh. rewrite <- Heq. eauto. }
  exists (r :: fl ++ fr'). split_and!.
  - apply is_tree_children. exists o, fl, fr'. split_and!; try done.
    + rewrite Hsame; eauto.
    + eapply is_child_frame; [exact Hl|]. intros x Hx. apply Hsame.
      * exact (is_child_allocated _ _ _ _ _ Hl Hx).
      * intros Hxr. by apply (Hdisj x).
  - apply NoDup_cons. split; [rewrite not_elem_of_app; by split|].
    apply NoDup_app. split_and!; done.
  - intros x. rewrite !elem_of_cons, !elem_of_app.
    intros [->|[Hx|Hx]]; [by left; left|by left; right; left|].
    destruct (Hsub x Hx) as [?| ->]; [left; right; by right|by right].
  - intros x Hx Hnot. apply Hsame; [done|].
    intros Hxl. apply Hnot. rewrite elem_of_cons, elem_of_app. auto.
Qed.

Lemma node_of_children_refined m e sd rt n l r :
  child_refined m e sd rt l -> child_refined m e sd rt r ->
  node_refined m e sd rt (mkNode n l r).
Proof.
  intros Hcl Hcr fuel h s b a fp ok t' out Ht Hnd Hrt Hfuel Hs.
  destruct fuel as [|fuel]; [simpl in Hfuel; lia|].
  apply is_tree_children in Ht as (o & fl & fr & Ho & Hn & -> & Hl & Hr).
  rewrite (insert_at_unfold _ _ _ _ _ _ Hs).
  rewrite (store_insert_unfold _ _ _ _ _ _ _ _ _ Hs Ho).
  cbn [name left right] in *. rewrite Hn.
  destruct (String.eqb n m).
  { (* the current node is the manager *)
    destruct (getattr (mkNode n l r) sd) as [c|] eqn:Hget;
      intros [= <- <- <-].
    - assert (exists ca f, Store.obj_getattr o sd = Some ca
                           /\ Store.is_tree h ca c f) as (ca & f & -> & Hc).
      { destruct sd; simpl in Hget; subst.
        - destruct (Store.obj_left o) eqn:E; simpl in *; [eauto|done].
        - destruct (Store.obj_right o) eqn:E; simpl in *; [eauto|done]. }
      apply is_tree_children in Hc as (oc & ? & ? & Hoc & Hnc & _).
      exists h. by rewrite Hoc, <- Hnc.
    - assert (Store.obj_getattr o sd = None) as ->.
      { destruct sd; simpl in Hget; subst; simpl.
        - by destruct (Store.obj_left o).
        - by destruct (Store.obj_right o). }
      eexists. split; [done|].
      by apply (store_attach_here h a o (mkNode n l r)). }
  (* the search goes down *)
  pose proof Hnd as Hnd'.
  apply NoDup_cons in Hnd' as [Ha_notin Hnd'].
  apply NoDup_app in Hnd' as (Hndl & Hdisj & Hndr).
  rewrite not_elem_of_app in Ha_notin. destruct Ha_notin as [Hal Har].
  assert (rt ∉ fl /\ rt ∉ fr) as [Hrtl Hrtr].
  { destruct b; [by subst a|].
    rewrite not_elem_of_cons, not_elem_of_app in Hrt. tauto. }
  simpl in Hfuel.
  assert (from_option height 0 l <= fuel /\ from_option height 0 r <= fuel)
    as [Hfl Hfr] by (destruct l, r; simpl in *; lia).
  destruct (insert_child m e sd l) as [[okl l'] outl] eqn:El.
  destruct (Hcl fuel h _ fl _ _ _ Hl Hndl Hrtl Hfl El)
    as (h1 & -> & Hg1 & Hsame1).
  cbn [mbind option_bind]. destruct okl.
  { intros [= <- <- <-]. exists h1. split; [done|].
    by apply (store_grow_left h h1 a o n l). }
  simpl in Hg1. subst h1. rewrite (Hsame1 eq_refl), Ho.
  cbn [mbind option_bind].
  destruct (insert_child m e sd r) as [[okr r'] outr] eqn:Er.
  destruct (Hcr fuel h _ fr _ _ _ Hr Hndr Hrtr Hfr Er)
    as (h2 & -> & Hg2 & Hsame2).
  cbn [mbind option_bind]. destruct okr.
  { intros [= <- <- <-]. exists h2. split; [done|].
    by apply (store_grow_right h h2 a o n l r). }
  simpl in Hg2. subst h2. intros [= <- <- <-]. exists h. split; [|done].
  do 4 f_equal. destruct b.
  - by rewrite decide_True.
  - rewrite decide_False; [done|]. intros ->. apply Hrt. by left.
Qed.

(** The frame of [Store.insert] on the object at [r] does what the frame of
    [insert_at] does on the tree that object holds, when the fuel covers
    the height of the tree. *)
Lemma store_insert_at m e sd rt t : node_refined m e sd rt t.
Proof.
  induction t as [n l r IHl IHr] using node_ind.
  apply node_of_children_refined; by apply child_of_node_refined.
Qed.

(** ** [Store.print_tree] and [print_node] agree *)

Lemma store_print_at fuel h rt r t fp level :
  Store.is_tree h r t fp ->
  height t < fuel ->
  Store.print_tree fuel h rt (Some r) level = Some (print_node t level).
Proof.
  revert fuel r fp level.
  induction t as [n l r' IHl IHr] using node_ind; intros fuel r fp level Ht Hfuel.
  destruct fuel as [|fuel]; [lia|].
  apply is_tree_children in Ht as (o & fl & fr & Ho & Hn & -> & Hl & Hr).
  simpl in Hn, Hl, Hr, Hfuel. simpl. rewrite Ho. simpl.
  assert (forall oa oc f,
            is_child h oa oc f ->
            from_option height 0 oc < fuel ->
            from_option
              (fun c => forall fuel r fp level,
                          Store.is_tree h r c fp -> height c < fuel ->
                          Store.print_tree fuel h rt (Some r) level
                          = Some (print_node c level)) True oc ->
            Store.print_tree fuel h rt oa (level + 1)
            = Some match oc with
                   | None => []
                   | Some c => print_node c (level + 1)
                   end) as Hchild.
  { intros oa oc f Hc Hh IH. destruct oa, oc; simpl in *; try done; [by eauto|].
    destruct fuel; [lia|]. simpl.
    by replace (level + 1 =? 0) with false by (symmetry; apply Nat.eqb_neq; lia). }
  rewrite (Hchild (Store.obj_left o) l fl),
    (Hchild (Store.obj_right o) r' fr); try done.
  - simpl. by rewrite Hn.
  - destruct l, r'; simpl in *; lia.
  - destruct l, r'; simpl in *; lia.
Qed.

(** ** The top-level calls on the store *)

Lemma store_insert_default fuel h rt m e s :
  Store.insert fuel h (Some rt) m e s None
  = Store.insert fuel h (Some rt) m e s (Some rt).
Proof. by destruct fuel. Qed.

Lemma store_insert_refines fuel h rt self m e s :
  Store.represents h rt self ->
  nodes self < fuel ->
  exists h',
    Store.insert fuel h rt m e s None
    = Some ((insert self m e s).1.1, h', (insert self m e s).2)
    /\ Store.represents h' rt (insert self m e s).1.2.
Proof.
  unfold Store.represents, nodes, insert.
  destruct self as [[t|]], rt as [rt|]; simpl; try done.
  - intros (fp & Ht & Hnd) Hfuel.
    destruct (norm_side s) as [sd|] eqn:Hs.
    + destruct (insert_at m e s true t) as [[ok t'] out] eqn:E.
      pose proof (height_le_size t) as Hh.
      destruct (store_insert_at m e sd rt t fuel h s true rt fp ok t' out)
        as (h' & Hins & Hg); [done|done|done|lia|done|done|].
      exists h'. rewrite store_insert_default. split; [done|]. simpl.
      destruct ok.
      * destruct Hg as (fp' & Ht' & Hnd' & _). eauto.
      * simpl in Hg. subst h'.
        apply (insert_at_effect _ _ _ _ _ _ _ _ _ Hs) in E. simpl in E.
        subst t'. eauto.
    + exists h. destruct fuel; [lia|]. simpl. rewrite Hs. eauto.
  - intros _ Hfuel. exists h. destruct fuel; [lia|]. simpl.
    by destruct (norm_side s).
Qed.

Lemma store_print_refines fuel h rt self :
  Store.represents h rt self ->
  nodes self < fuel ->
  Store.print_tree fuel h rt None 0 = Some (print_tree self).
Proof.
  unfold Store.represents, nodes, print_tree.
  destruct self as [[t|]], rt as [rt|]; simpl; try done.
  - intros (fp & Ht & Hnd) Hfuel.
    pose proof (height_le_size t) as Hh.
    rewrite <- (store_print_at fuel h (Some rt) rt t fp 0) by (done || lia).
    by destruct fuel.
  - intros _ Hfuel. destruct fuel; [lia|done].
Qed.

Lemma store_empty_represents : Store.represents ∅ None empty_tree.
Proof. done. Qed.

Lemma store_set_root_represents h n self :
  Store.represents (Store.set_root h n).1 (Store.set_root h n).2
    (set_root self n).
Proof.
  exists [fresh (dom h)]. split; [|apply NoDup_singleton].
  apply (is_tree_children _ _ (new_node n)).
  exists (Store.new_object n), [], []. split_and!; try done.
  apply lookup_insert_eq.
Qed.

(** ** The claims *)

(** C1. The claim: the node used is the first node called [manager_name] in
    depth-first order, and when its slot is taken the call fails with
    [SlotOccupied] and attaches nothing anywhere.  The code does otherwise:
    in the team below, built by three calls of [insert], the first "Sam" has
    [left] taken by "Kim"; the call prints the line for that, goes on to
    the second "Sam", stores "Eve" there and returns [True]. *)
Theorem insert_continues_after_occupied_match :
  let kim := new_node "Kim" in
  let sam1 := mkNode "Sam" (Some kim) None in
  let sam2 := new_node "Sam" in
  let lead := mkNode "Lead" (Some sam1) (Some sam2) in
  insert_seq (set_root empty_tree "Lead")
    [mkCall "Lead" "Sam" (Some "left"); mkCall "Lead" "Sam" (Some "right");
     mkCall "Sam" "Kim" (Some "left")]
  = (mkTree (Some lead), [true; true; true], [])
  /\ first_match "Sam" lead = Some [LEFT]
  /\ node_at lead [LEFT; LEFT] = Some kim
  /\ insert (mkTree (Some lead)) "Sam" "Eve" (Some "left")
     = (true,
        mkTree (Some (mkNode "Lead" (Some sam1)
                        (Some (mkNode "Sam" (Some (new_node "Eve")) None)))),
        [SlotOccupied "Sam" LEFT "Kim"]).
Proof. by vm_compute. Qed.

(** C2. The claim: [ManagerNotFound] is reported exactly when no node has
    the name, and a call whose first match has the slot taken reports only
    [SlotOccupied].  The code does otherwise: in the team below, built by
    two calls of [insert], "Bob" has [left] taken by "Dan"; the call prints
    the line for that and then the line saying that "Bob" does not exist. *)
Theorem insert_reports_not_found_for_existing_manager :
  let bob := mkNode "Bob" (Some (new_node "Dan")) None in
  let alice := mkNode "Alice" (Some bob) None in
  insert_seq (set_root empty_tree "Alice")
    [mkCall "Alice" "Bob" (Some "left"); mkCall "Bob" "Dan" (Some "left")]
  = (mkTree (Some alice), [true; true], [])
  /\ name_at alice [LEFT] = Some "Bob"
  /\ insert (mkTree (Some alice)) "Bob" "Eve" (Some "left")
     = (false, mkTree (Some alice),
        [SlotOccupied "Bob" LEFT "Dan"; ManagerNotFound "Bob"])
  /\ text (ManagerNotFound "Bob")
     = "❌ Error: Manager named 'Bob' does not exist in the current team tree.".
Proof. by vm_compute. Qed.

(** C3. The scenario of the design notes, call by call: the flags, the
    trees, the lines printed and the final listing. *)
Theorem alice_scenario :
  let t0 := set_root empty_tree "Alice" in
  let t1 := mkTree (Some (mkNode "Alice" (Some (new_node "Bob")) None)) in
  let t2 :=
    mkTree (Some (mkNode "Alice"
                    (Some (mkNode "Bob" None (Some (new_node "Dan")))) None)) in
  insert t0 "Alice" "Bob" (Some "left") = (true, t1, [])
  /\ insert t1 "Alice" "Carol" (Some "left")
     = (false, t1, [SlotOccupied "Alice" LEFT "Bob"])
  /\ insert t1 "Bob" "Dan" (Some "right") = (true, t2, [])
  /\ insert t2 "Eve" "Frank" (Some "left")
     = (false, t2, [ManagerNotFound "Eve"])
  /\ print_tree t2 = [NodeLine 0 "Alice"; NodeLine 1 "Bob"; NodeLine 2 "Dan"]
  /\ render t2 = ["- Alice"; "  - Bob"; "    - Dan"]
  /\ insert_seq t0
       [mkCall "Alice" "Bob" (Some "left"); mkCall "Alice" "Carol" (Some "left");
        mkCall "Bob" "Dan" (Some "right"); mkCall "Eve" "Frank" (Some "left")]
     = (t2, [true; false; true; false],
        [SlotOccupied "Alice" LEFT "Bob"; ManagerNotFound "Eve"])
  /\ text (SlotOccupied "Alice" LEFT "Bob")
     = "❌ Error: Alice's LEFT side is already occupied by Bob.".
Proof. by vm_compute. Qed.

(** C4. A call that returns [True] created one node, called
    [employee_name], in the requested slot, empty until then, of a node
    called [manager_name]; every other position holds what it held.  A call
    that returns [False], for whichever reason, left the tree as it was. *)
Theorem insert_frame self m e s ok self' out :
  insert self m e s = (ok, self', out) ->
  (ok = true ->
   exists t t' sd p,
     root self = Some t /\ root self' = Some t' /\ norm_side s = Some sd
     /\ name_at t p = Some m /\ name_at t (p ++ [sd]) = None
     /\ (forall q, name_at t' q
                   = if decide (q = p ++ [sd]) then Some e else name_at t q)
     /\ size t' = S (size t))
  /\ (ok = false -> self' = self).
Proof.
  intros H. apply insert_effect in H. split; intros ->; [|done].
  destruct H as (t & sd & p & Ht & Hs & Hn & Hfree & Ht').
  pose proof (name_at_is_Some _ _ _ Hn) as Hp.
  exists t, (attach t p sd (new_node e)), sd, p. split_and!; try done.
  - unfold name_at. by rewrite Hfree.
  - intros q. by apply attach_name_at.
  - rewrite attach_size by done. simpl. lia.
Qed.

Lemma insert_frame_witness :
  let t := mkTree (Some (new_node "Alice")) in
  let t' := mkTree (Some (mkNode "Alice" (Some (new_node "Bob")) None)) in
  insert t "Alice" "Bob" (Some "left") = (true, t', [])
  /\ (true = true ->
      exists t0 t1 sd p,
        root t = Some t0 /\ root t' = Some t1
        /\ norm_side (Some "left") = Some sd
        /\ name_at t0 p = Some "Alice" /\ name_at t0 (p ++ [sd]) = None
        /\ (forall q, name_at t1 q
                      = if decide (q = p ++ [sd]) then Some "Bob"
                        else name_at t0 q)
        /\ size t1 = S (size t0))
  /\ (true = false -> t' = t).
Proof.
  split; [by vm_compute|].
  apply (insert_frame _ "Alice" "Bob" (Some "left") true _ []).
  by vm_compute.
Defined.

(** C5. The side is compared after stripping and lower-casing, so a call
    does not depend on the case of its side nor on the spaces around it:
    "Left", " left " and "LEFT" are LEFT and a call with one of them is the
    call with "left"; "up", the empty string and [None] are refused with
    [InvalidSide], the call returns [False] and the tree is as it was. *)
Theorem side_normalisation self m e s1 s2 pre s post :
  Str.lower s1 = Str.lower s2 ->
  Str.all_space pre = true ->
  Str.all_space post = true ->
  (insert self m e (Some s1) = insert self m e (Some s2)
   /\ insert self m e (Some (pre +:+ s +:+ post)) = insert self m e (Some s))
  /\ (norm_side (Some "Left") = Some LEFT
      /\ norm_side (Some " left ") = Some LEFT
      /\ norm_side (Some "LEFT") = Some LEFT)
  /\ (insert self m e (Some "Left") = insert self m e (Some "left")
      /\ insert self m e (Some " left ") = insert self m e (Some "left")
      /\ insert self m e (Some "LEFT") = insert self m e (Some "left"))
  /\ (insert self m e (Some "up") = (false, self, [InvalidSide])
      /\ insert self m e (Some "") = (false, self, [InvalidSide])
      /\ insert self m e None = (false, self, [InvalidSide])).
Proof.
  intros Hcase Hpre Hpost. split_and!.
  - by apply insert_norm, norm_side_case.
  - by apply insert_norm, norm_side_spaces.
  - reflexivity.
  - reflexivity.
  - reflexivity.
  - by apply insert_norm.
  - by apply insert_norm.
  - by apply insert_norm.
  - by apply insert_invalid_side.
  - by apply insert_invalid_side.
  - by apply insert_invalid_side.
Qed.

Lemma side_normalisation_witness :
  let self := mkTree (Some (new_node "Alice")) in
  Str.lower "RiGhT" = Str.lower "right"
  /\ Str.all_space "  " = true
  /\ Str.all_space " " = true
  /\ insert self "Alice" "Bob" (Some "RiGhT")
     = insert self "Alice" "Bob" (Some "right")
  /\ insert self "Alice" "Bob" (Some ("  " +:+ "Right" +:+ " "))
     = insert self "Alice" "Bob" (Some "Right").
Proof.
  split; [reflexivity|]. split; [reflexivity|]. split; [reflexivity|].
  apply (side_normalisation (mkTree (Some (new_node "Alice"))) "Alice" "Bob"
           "RiGhT" "right" "  " "Right" " "); reflexivity.
Defined.

(** C6. After a root is set and any sequence of calls that all return
    [True], [print_tree] prints one line per node: the positions of the
    tree taken in depth-first order, node before left subtree before right
    subtree, every position once, each line at the depth of its node and
    with its name; the lines are the root and the inserted employees, as
    many as there were calls plus one.  Without a root the listing is the
    single line for the empty team. *)
Theorem print_tree_after_inserts rootname calls self' bs out :
  insert_seq (set_root empty_tree rootname) calls = (self', bs, out) ->
  Forall (eq true) bs ->
  (exists t,
     root self' = Some t
     /\ Forall2 (fun ev p => exists nd,
                   node_at t p = Some nd
                   /\ ev = NodeLine (length p) (name nd))
          (print_tree self') (positions t)
     /\ StronglySorted before (positions t)
     /\ NoDup (positions t)
     /\ (forall p, p ∈ positions t <-> is_Some (node_at t p))
     /\ length (print_tree self') = S (length calls)
     /\ omap who_of (print_tree self') ≡ₚ rootname :: (employee <$> calls))
  /\ print_tree empty_tree = [EmptyTeam]
  /\ render empty_tree = ["(empty team)"].
Proof.
  intros Hseq Hall. split; [|done].
  destruct (insert_seq_success _ _ _ _ _ Hseq Hall) as (t & Ht & Hsize & Hperm).
  exists t. unfold print_tree. rewrite Ht. split_and!; [done|..].
  - apply print_node_lines.
  - apply positions_sorted.
  - apply positions_NoDup.
  - apply elem_of_positions.
  - rewrite length_print_node, Hsize. simpl. lia.
  - rewrite print_node_names, Hperm. simpl.
    by rewrite <- Permutation_middle, app_nil_r.
Qed.

Lemma print_tree_after_inserts_witness :
  let calls := [mkCall "Alice" "Bob" (Some "left");
                mkCall "Bob" "Dan" (Some "right")] in
  let self' :=
    mkTree (Some (mkNode "Alice"
                    (Some (mkNode "Bob" None (Some (new_node "Dan")))) None)) in
  insert_seq (set_root empty_tree "Alice") calls = (self', [true; true], [])
  /\ Forall (eq true) [true; true]
  /\ (exists t,
        root self' = Some t
        /\ Forall2 (fun ev p => exists nd,
                      node_at t p = Some nd
                      /\ ev = NodeLine (length p) (name nd))
             (print_tree self') (positions t)
        /\ StronglySorted before (positions t)
        /\ NoDup (positions t)
        /\ (forall p, p ∈ positions t <-> is_Some (node_at t p))
        /\ length (print_tree self') = S (length calls)
        /\ omap who_of (print_tree self') ≡ₚ "Alice" :: (employee <$> calls))
  /\ print_tree empty_tree = [EmptyTeam]
  /\ render empty_tree = ["(empty team)"].
Proof.
  split; [by vm_compute|]. split; [by repeat constructor|].
  apply (print_tree_after_inserts "Alice" _ _ [true; true] []).
  - by vm_compute.
  - by repeat constructor.
Defined.

(** C7, as the claim states it, fails on a call whose side is not valid:
    the side is checked before the root, and the line printed is the one
    of [InvalidSide]. *)
Lemma no_root_invalid_side_reports_side :
  root empty_tree = None
  /\ insert empty_tree "Alice" "Bob" (Some "up")
     = (false, empty_tree, [InvalidSide])
  /\ (insert empty_tree "Alice" "Bob" (Some "up")).2 <> [NoRoot].
Proof. split_and!; [done..|]. by vm_compute. Qed.

(** C7, amended. A call made while the root is absent returns [False] and
    changes nothing; it reports [NoRoot] when its side is valid, and
    [InvalidSide] when it is not. *)
Theorem insert_no_root self m e s :
  root self = None ->
  insert self m e s
  = (false, self, [if norm_side s is Some _ then NoRoot else InvalidSide]).
Proof.
  intros H. unfold insert. destruct (norm_side s); [|done]. by rewrite H.
Qed.

Lemma insert_no_root_witness :
  root empty_tree = None
  /\ insert empty_tree "Alice" "Bob" (Some "left")
     = (false, empty_tree, [NoRoot]).
Proof.
  split; [reflexivity|].
  apply (insert_no_root empty_tree "Alice" "Bob" (Some "left")). reflexivity.
Defined.

(** C8. Whatever the sequence of [insert] and [print_tree] calls, a tree
    that has a root keeps it: the root is there afterwards under the same
    name, and so is every node, at its place and under its name.
    [print_tree] returns the tree it was given. *)
Theorem core_never_empties ops self self' out t :
  run self ops = (self', out) ->
  root self = Some t ->
  (exists t', root self' = Some t' /\ name t' = name t /\ extends t t')
  /\ (forall tree, (step tree OpRender).1 = tree).
Proof.
  intros Hrun Ht. split; [|done].
  destruct (run_extends _ _ _ _ _ Hrun Ht) as (t' & Ht' & Hext).
  exists t'. split_and!; [done| |done].
  specialize (Hext [] (name t) eq_refl). by injection Hext.
Qed.

Lemma core_never_empties_witness :
  let ops := [OpInsert (mkCall "Alice" "Bob" (Some "left")); OpRender;
              OpInsert (mkCall "Eve" "Frank" (Some "left"))] in
  let self := set_root empty_tree "Alice" in
  let self' := mkTree (Some (mkNode "Alice" (Some (new_node "Bob")) None)) in
  run self ops
  = (self', [NodeLine 0 "Alice"; NodeLine 1 "Bob"; ManagerNotFound "Eve"])
  /\ root self = Some (new_node "Alice")
  /\ (exists t', root self' = Some t' /\ name t' = "Alice"
                 /\ extends (new_node "Alice") t')
  /\ (forall tree, (step tree OpRender).1 = tree).
Proof.
  split; [by vm_compute|]. split; [reflexivity|].
  apply (core_never_empties
           [OpInsert (mkCall "Alice" "Bob" (Some "left")); OpRender;
            OpInsert (mkCall "Eve" "Frank" (Some "left"))]
           (set_root empty_tree "Alice") _
           [NodeLine 0 "Alice"; NodeLine 1 "Bob"; ManagerNotFound "Eve"]
           (new_node "Alice")).
  - by vm_compute.
  - reflexivity.
Defined.

(** C9. On a store that holds a tree, a call of [insert] and a call of
    [print_tree] return, with a recursion no deeper than the number of
    nodes allows: any fuel above that number is enough.  They return what
    the methods on trees return, and the store holds a tree again
    afterwards, as it does after the root is set. *)
Theorem calls_terminate h rt self fuel m e s :
  Store.represents h rt self ->
  nodes self < fuel ->
  (exists h',
     Store.insert fuel h rt m e s None
     = Some ((insert self m e s).1.1, h', (insert self m e s).2)
     /\ Store.represents h' rt (insert self m e s).1.2)
  /\ Store.print_tree fuel h rt None 0 = Some (print_tree self)
  /\ (forall n, Store.represents (Store.set_root h n).1 (Store.set_root h n).2
                  (set_root self n)).
Proof.
  intros Hrep Hfuel. split_and!.
  - by apply store_insert_refines.
  - by apply store_print_refines.
  - intros n. apply store_set_root_represents.
Qed.

Lemma calls_terminate_witness :
  let h := (Store.set_root ∅ "Alice").1 in
  let rt := (Store.set_root ∅ "Alice").2 in
  let self := set_root empty_tree "Alice" in
  Store.represents h rt self
  /\ nodes self < 2
  /\ (exists h',
        Store.insert 2 h rt "Alice" "Bob" (Some "left") None
        = Some ((insert self "Alice" "Bob" (Some "left")).1.1, h',
                (insert self "Alice" "Bob" (Some "left")).2)
        /\ Store.represents h' rt (insert self "Alice" "Bob" (Some "left")).1.2)
  /\ Store.print_tree 2 h rt None 0 = Some (print_tree self)
  /\ (forall n, Store.represents (Store.set_root h n).1 (Store.set_root h n).2
                  (set_root self n)).
Proof.
  split; [apply store_set_root_represents|].
  split; [unfold nodes; simpl; lia|].
  apply (calls_terminate (Store.set_root ∅ "Alice").1
           (Store.set_root ∅ "Alice").2 (set_root empty_tree "Alice") 2
           "Alice" "Bob" (Some "left")).
  - apply store_set_root_represents.
  - unfold nodes. simpl. lia.
Defined.

(** C10, as the claim states it, fails when the node with the free slot is
    below another node of the same name: the search stops at the upper
    "Ann", whose [left] is taken, and never reaches the lower one. *)
Lemma insert_stops_at_upper_namesake :
  let ann2 := new_node "Ann" in
  let ann1 := mkNode "Ann" (Some ann2) None in
  name_at ann1 [LEFT] = Some "Ann"
  /\ node_at ann1 ([LEFT] ++ [LEFT]) = None
  /\ norm_side (Some "left") = Some LEFT
  /\ insert (mkTree (Some ann1)) "Ann" "" (Some "left")
     = (false, mkTree (Some ann1), [SlotOccupied "Ann" LEFT "Ann"]).
Proof. by vm_compute. Qed.

(** C10, amended. [insert] does not look at the names it is given: when the
    first node called [manager_name], in depth-first order, has the
    requested slot free, the call with the empty string as [employee_name]
    returns [True] and stores a node with the empty name there, and so does
    the call with any other name, one already in the tree included. *)
Theorem insert_accepts_any_name t m s sd p :
  norm_side s = Some sd ->
  first_match m t = Some p ->
  node_at t (p ++ [sd]) = None ->
  (insert (mkTree (Some t)) m "" s
   = (true, mkTree (Some (attach t p sd (new_node ""))), [])
   /\ name_at (attach t p sd (new_node "")) (p ++ [sd]) = Some "")
  /\ (forall e,
        insert (mkTree (Some t)) m e s
        = (true, mkTree (Some (attach t p sd (new_node e))), [])
        /\ name_at (attach t p sd (new_node e)) (p ++ [sd]) = Some e).
Proof.
  intros Hs Hp Hfree.
  assert (forall e,
            insert (mkTree (Some t)) m e s
            = (true, mkTree (Some (attach t p sd (new_node e))), [])
            /\ name_at (attach t p sd (new_node e)) (p ++ [sd]) = Some e) as H.
  { intros e. split; [by apply insert_first_free|].
    rewrite attach_name_at; [by case_decide| |done].
    apply first_match_Some in Hp as [Hp _]. by eapply name_at_is_Some. }
  split; [apply H | exact H].
Qed.

Lemma insert_accepts_any_name_witness :
  let t := mkNode "Alice" (Some (new_node "Bob")) None in
  norm_side (Some "right") = Some RIGHT
  /\ first_match "Bob" t = Some [LEFT]
  /\ node_at t ([LEFT] ++ [RIGHT]) = None
  /\ insert (mkTree (Some t)) "Bob" "" (Some "right")
     = (true, mkTree (Some (attach t [LEFT] RIGHT (new_node ""))), []).
Proof.
  split; [reflexivity|]. split; [reflexivity|]. split; [reflexivity|].
  apply (insert_accepts_any_name
           (mkNode "Alice" (Some (new_node "Bob")) None) "Bob"
           (Some "right") RIGHT [LEFT]); reflexivity.
Defined.

(** ** The search of [insert], exactly *)

Lemma filter_fmap {A B} (f : B -> bool) (g : A -> B) (l : list A) :
  List.filter f (g <$> l) = g <$> List.filter (f ∘ g) l.
Proof.
  induction l as [|x l IH]; csimpl; [done|].
  destruct (f (g x)); csimpl; by rewrite IH.
Qed.

Lemma filter_none {A} (f : A -> bool) (l : list A) :
  (forall x, x ∈ l -> f x = false) -> List.filter f l = [].
Proof.
  induction l as [|x l IH]; simpl; [done|]. intros H.
  rewrite (H x) by left. apply IH. intros y Hy. apply H. by right.
Qed.

Lemma candidates_unfold m t :
  candidates m t
  = if String.eqb (name t) m then [[]]
    else child_candidates m LEFT (left t) ++ child_candidates m RIGHT (right t).
Proof.
  destruct t as [n l r]. unfold candidates. cbn [positions name left right].
  cbn [List.filter topmost name].
  destruct (String.eqb n m) eqn:E.
  - f_equal. apply filter_none. intros p Hp.
    apply elem_of_app in Hp as [Hp|Hp].
    + destruct l; [|by apply elem_of_nil in Hp].
      apply list_elem_of_fmap in Hp as (q & -> & _). simpl. by rewrite E.
    + destruct r; [|by apply elem_of_nil in Hp].
      apply list_elem_of_fmap in Hp as (q & -> & _). simpl. by rewrite E.
  - rewrite List.filter_app. f_equal.
    + destruct l as [l|]; [|done]. cbn [child_candidates].
      rewrite filter_fmap. unfold candidates.
      f_equal. apply List.filter_ext. intros p. simpl. by rewrite E.
    + destruct r as [r|]; [|done]. cbn [child_candidates].
      rewrite filter_fmap. unfold candidates.
      f_equal. apply List.filter_ext. intros p. simpl. by rewrite E.
Qed.

Lemma visit_app m sd t l1 l2 :
  visit m sd t (l1 ++ l2)
  = match visit m sd t l1 with
    | (Some p, out) => (Some p, out)
    | (None, out1) =>
        let '(found, out2) := visit m sd t l2 in (found, out1 ++ out2)
    end.
Proof.
  induction l1 as [|p l1 IH]; simpl; [by destruct (visit m sd t l2)|].
  destruct (node_at t (p ++ [sd])); [|done]. rewrite IH.
  destruct (visit m sd t l1) as [[q|] o]; [done|].
  by destruct (visit m sd t l2).
Qed.

Lemma visit_child m sd t d c cs :
  getattr t d = Some c ->
  visit m sd t (cons d <$> cs)
  = let '(found, out) := visit m sd c cs in (cons d <$> found, out).
Proof.
  intros Hc. induction cs as [|p cs IH]; csimpl; [done|].
  rewrite Hc. destruct (node_at c (p ++ [sd])); [|done].
  rewrite IH. by destruct (visit m sd c cs).
Qed.

Lemma insert_child_visit m e sd t d oc :
  from_option
    (fun c => forall s b, norm_side s = Some sd ->
                          insert_at m e s b c = frame_result m e sd b c)
    True oc ->
  getattr t d = oc ->
  insert_child m e sd oc
  = match visit m sd t (child_candidates m d oc) with
    | (Some (_ :: p), out) =>
        (true, (fun c => attach c p sd (new_node e)) <$> oc, out)
    | (_, out) => (false, oc, out)
    end.
Proof.
  intros IH Hd. destruct oc as [c|]; simpl in *; [|done].
  rewrite (visit_child _ _ _ _ _ _ Hd).
  rewrite (IH _ false (norm_side_str sd)). unfold frame_result.
  destruct (visit m sd c (candidates m c)) as [[p|] o]; simpl; [done|].
  by rewrite app_nil_r.
Qed.

Lemma insert_at_visit m e s sd b t :
  norm_side s = Some sd ->
  insert_at m e s b t = frame_result m e sd b t.
Proof.
  revert s b. induction t as [n l r IHl IHr] using node_ind; intros s b Hs.
  rewrite (insert_at_unfold _ _ _ _ _ _ Hs). unfold frame_result.
  rewrite candidates_unfold. cbn [name left right].
  destruct (String.eqb n m) eqn:E.
  { cbn [visit app]. cbn [node_at].
    destruct (getattr (mkNode n l r) sd); simpl; [|done].
    by rewrite andb_false_r. }
  rewrite visit_app.
  rewrite (insert_child_visit m e sd (mkNode n l r) LEFT l IHl eq_refl).
  rewrite (insert_child_visit m e sd (mkNode n l r) RIGHT r IHr eq_refl).
  destruct l as [l|]; cbn [child_candidates].
  - rewrite (visit_child m sd (mkNode n (Some l) r) LEFT l) by done.
    destruct (visit m sd l (candidates m l)) as [[p|] ol];
      cbn [fmap option_fmap option_map]; [done|].
    destruct r as [r|]; cbn [child_candidates].
    + rewrite (visit_child m sd (mkNode n (Some l) (Some r)) RIGHT r) by done.
      destruct (visit m sd r (candidates m r)) as [[p|] or];
        cbn [fmap option_fmap option_map]; [done|].
      by rewrite andb_true_r, (assoc_L (++)).
    + simpl. by rewrite andb_true_r, ?app_nil_r.
  - simpl visit at 1 2. cbn iota.
    destruct r as [r|]; cbn [child_candidates].
    + rewrite (visit_child m sd (mkNode n None (Some r)) RIGHT r) by done.
      destruct (visit m sd r (candidates m r)) as [[p|] or];
        cbn [fmap option_fmap option_map]; [done|].
      by rewrite andb_true_r, (assoc_L (++)).
    + simpl. by rewrite andb_true_r, ?app_nil_r.
Qed.

Lemma name_at_cons t d p :
  name_at t (d :: p) = getattr t d ≫= fun c => name_at c p.
Proof. unfold name_at. simpl. by destruct (getattr t d). Qed.

Lemma topmost_spec m t p :
  topmost m t p = true <->
  name_at t p = Some m
  /\ forall q, q `prefix_of` p -> q <> p -> name_at t q <> Some m.
Proof.
  revert t. induction p as [|d p IH]; intros t; simpl.
  - rewrite String.eqb_eq. unfold name_at. simpl. split.
    + intros ->. split; [done|]. intros q Hq%prefix_nil_inv. done.
    + by intros [[= ->] _].
  - rewrite andb_true_iff, negb_true_iff, String.eqb_neq, name_at_cons.
    destruct (getattr t d) as [c|] eqn:Hc; simpl.
    + rewrite IH. split.
      * intros (Hne & Hn & Hq). split; [done|]. intros [|d' q] Hpre Hneq.
        -- unfold name_at. simpl. congruence.
        -- apply prefix_cons_inv_1 in Hpre as Hd. subst d'.
           apply prefix_cons_inv_2 in Hpre.
           rewrite name_at_cons, Hc. simpl. apply Hq; [done|congruence].
      * intros (Hn & Hq). split_and!; [|done|].
        -- intros <-. apply (Hq []); [apply prefix_nil|done|done].
        -- intros q Hpre Hneq. specialize (Hq (d :: q)).
           rewrite name_at_cons, Hc in Hq. simpl in Hq.
           apply Hq; [by apply prefix_cons|congruence].
    + split; [by intros [_ ?]|by intros [? _]].
Qed.

Lemma elem_of_candidates m t p : p ∈ candidates m t <-> topmost m t p = true.
Proof.
  unfold candidates. rewrite list_elem_of_In, List.filter_In.
  rewrite <- list_elem_of_In, elem_of_positions. split; [by intros [_ ?]|].
  intros H. split; [|done].
  apply topmost_spec in H as [H _]. by eapply name_at_is_Some.
Qed.

Lemma filter_sorted {A} (R : relation A) (f : A -> bool) (l : list A) :
  StronglySorted R l -> StronglySorted R (List.filter f l).
Proof.
  induction 1 as [|x l Hl IH Hall]; simpl; [constructor|].
  destruct (f x); [|done]. constructor; [done|].
  rewrite Forall_forall in *. intros y Hy. apply Hall.
  apply list_elem_of_In, List.filter_In in Hy as [Hy _].
  by apply list_elem_of_In.
Qed.

Lemma candidates_sorted m t : StronglySorted before (candidates m t).
Proof. apply filter_sorted, positions_sorted. Qed.

(** [visit] stops at the first candidate whose slot is free. *)
Lemma visit_found m sd t cs p out :
  visit m sd t cs = (Some p, out) ->
  node_at t (p ++ [sd]) = None
  /\ exists pre rest,
       cs = pre ++ p :: rest
       /\ Forall (fun q => is_Some (node_at t (q ++ [sd]))) pre
       /\ length out = length pre.
Proof.
  revert out. induction cs as [|q cs IH]; intros out; simpl; [done|].
  destruct (node_at t (q ++ [sd])) as [c|] eqn:Hq.
  - destruct (visit m sd t cs) as [found o] eqn:E. intros [= -> <-].
    destruct (IH _ eq_refl) as (Hfree & pre & rest & -> & Hpre & Hlen).
    split; [done|]. exists (q :: pre), rest. split_and!; [done| |simpl; lia].
    constructor; [by rewrite Hq|done].
  - intros [= <- <-]. split; [done|]. by exists [], cs.
Qed.

Lemma visit_not_found m sd t cs out :
  visit m sd t cs = (None, out) ->
  Forall (fun q => is_Some (node_at t (q ++ [sd]))) cs
  /\ length out = length cs.
Proof.
  revert out. induction cs as [|q cs IH]; intros out; simpl.
  - by intros [= <-].
  - destruct (node_at t (q ++ [sd])) as [c|] eqn:Hq; [|done].
    destruct (visit m sd t cs) as [found o] eqn:E. intros [= -> <-].
    destruct (IH _ eq_refl) as [Hall Hlen].
    split; [|simpl; lia]. constructor; [by rewrite Hq|done].
Qed.

Lemma usable_candidate m sd t p :
  usable m sd t p <-> p ∈ candidates m t /\ node_at t (p ++ [sd]) = None.
Proof.
  unfold usable. rewrite elem_of_candidates, topmost_spec. tauto.
Qed.

Lemma visit_lines m sd t cs :
  Forall (occupied_line m sd) (visit m sd t cs).2.
Proof.
  induction cs as [|q cs IH]; simpl; [constructor|].
  destruct (node_at t (q ++ [sd])) as [c|]; [|constructor].
  destruct (visit m sd t cs) as [found o]. simpl in *.
  constructor; [by exists (name c)|done].
Qed.

Lemma insert_visit t m e s sd :
  norm_side s = Some sd ->
  insert (mkTree (Some t)) m e s
  = let '(ok, t', out) := frame_result m e sd true t in
    (ok, mkTree (Some t'), out).
Proof.
  intros Hs. unfold insert. rewrite Hs. simpl.
  by rewrite (insert_at_visit _ _ _ _ _ _ Hs).
Qed.

Lemma insert_search t m e s sd :
  norm_side s = Some sd ->
  insert (mkTree (Some t)) m e s
  = match visit m sd t (candidates m t) with
    | (Some p, out) =>
        (true, mkTree (Some (attach t p sd (new_node e))), out)
    | (None, out) =>
        (false, mkTree (Some t),
         out ++ (if String.eqb (name t) m then []
                 else [ManagerNotFound m]))
    end.
Proof.
  intros Hs. rewrite (insert_visit _ _ _ _ _ Hs). unfold frame_result.
  destruct (visit m sd t (candidates m t)) as [[p|] out]; [done|].
  simpl. by destruct (String.eqb (name t) m).
Qed.

(** What a call with a valid side and a root prints. *)
Lemma insert_lines t m e s sd ok self' out :
  norm_side s = Some sd ->
  insert (mkTree (Some t)) m e s = (ok, self', out) ->
  exists lines,
    Forall (occupied_line m sd) lines
    /\ out = lines ++ (if negb ok && negb (String.eqb (name t) m)
                       then [ManagerNotFound m] else []).
Proof.
  intros Hs. rewrite (insert_search _ _ _ _ _ Hs).
  pose proof (visit_lines m sd t (candidates m t)) as Hl.
  destruct (visit m sd t (candidates m t)) as [[p|] o];
    intros [= <- <- <-]; exists o; simpl in *.
  - by rewrite app_nil_r.
  - split; [done|]. by destruct (String.eqb (name t) m).
Qed.

(** ** Further properties of [insert] *)

(** X1. With a valid side and a root, [insert] goes in depth-first order
    through the nodes called [manager_name] that have no node of that name
    above them.  It prints the line of line 58 for each one whose slot is
    taken and stops at the first whose slot is free: the new node goes
    there and the call returns [True].  When none has the slot free the
    call returns [False], the tree is as it was, and the line of line 74
    follows when the root is not called [manager_name]. *)
Theorem insert_search_exact t m e s sd :
  norm_side s = Some sd ->
  insert (mkTree (Some t)) m e s
  = match visit m sd t (candidates m t) with
    | (Some p, out) =>
        (true, mkTree (Some (attach t p sd (new_node e))), out)
    | (None, out) =>
        (false, mkTree (Some t),
         out ++ (if String.eqb (name t) m then []
                 else [ManagerNotFound m]))
    end.
Proof. apply insert_search. Qed.

Lemma insert_search_exact_witness :
  let sam1 := mkNode "Sam" (Some (new_node "Kim")) None in
  let lead := mkNode "Lead" (Some sam1) (Some (new_node "Sam")) in
  norm_side (Some "left") = Some LEFT
  /\ candidates "Sam" lead = [[LEFT]; [RIGHT]]
  /\ insert (mkTree (Some lead)) "Sam" "Eve" (Some "left")
     = match visit "Sam" LEFT lead (candidates "Sam" lead) with
       | (Some p, out) =>
           (true, mkTree (Some (attach lead p LEFT (new_node "Eve"))), out)
       | (None, out) =>
           (false, mkTree (Some lead),
            out ++ (if String.eqb (name lead) "Sam" then []
                    else [ManagerNotFound "Sam"]))
       end.
Proof.
  split; [reflexivity|]. split; [reflexivity|].
  apply (insert_search_exact
           (mkNode "Lead" (Some (mkNode "Sam" (Some (new_node "Kim")) None))
              (Some (new_node "Sam")))
           "Sam" "Eve" (Some "left") LEFT).
  reflexivity.
Defined.

Lemma sorted_head_min (l : list path) p :
  StronglySorted before l -> p ∈ l ->
  (forall q, q ∈ l -> q = p \/ before p q) ->
  exists rest, l = p :: rest.
Proof.
  intros Hs Hp Hmin. destruct l as [|x l]; [by apply elem_of_nil in Hp|].
  destruct (Hmin x) as [->|Hpx]; [by left|by eauto|].
  apply elem_of_cons in Hp as [->|Hp]; [by eauto|].
  apply StronglySorted_cons in Hs as [Hall _].
  rewrite Forall_forall in Hall. destruct (before_asym _ _ Hpx (Hall p Hp)).
Qed.

(** X2. With a valid side and a root, [insert] returns [True] exactly when
    some node called [manager_name], with no node of that name above it,
    has the requested slot free; the new node then goes to the first such
    node in depth-first order, and to no other place. *)
Theorem insert_succeeds_iff_usable t m e s sd ok self' out :
  norm_side s = Some sd ->
  insert (mkTree (Some t)) m e s = (ok, self', out) ->
  (ok = true <-> exists p, usable m sd t p)
  /\ (ok = true ->
      exists p,
        usable m sd t p
        /\ (forall q, usable m sd t q -> q = p \/ before p q)
        /\ self' = mkTree (Some (attach t p sd (new_node e)))).
Proof.
  intros Hs. rewrite (insert_search _ _ _ _ _ Hs).
  pose proof (candidates_sorted m t) as Hsorted.
  destruct (visit m sd t (candidates m t)) as [[p|] o] eqn:Hv;
    intros [= <- <- <-].
  - apply visit_found in Hv as (Hfree & pre & rest & Hcs & Hpre & _).
    assert (usable m sd t p) as Hp.
    { apply usable_candidate. split; [|done]. rewrite Hcs. set_solver. }
    split; [split; [by eauto|done]|]. intros _. exists p.
    split_and!; [done| |done].
    intros q [Hq Hqfree]%usable_candidate. rewrite Hcs in Hq, Hsorted.
    apply elem_of_app in Hq as [Hq|Hq].
    + rewrite Forall_forall in Hpre. apply Hpre in Hq.
      rewrite Hqfree in Hq. by destruct Hq.
    + apply elem_of_cons in Hq as [->|Hq]; [by left|right].
      apply StronglySorted_app in Hsorted as (_ & _ & Hs2).
      apply StronglySorted_cons in Hs2 as [Hall _].
      rewrite Forall_forall in Hall. by apply Hall.
  - apply visit_not_found in Hv as [Hall _]. split; [|done].
    split; [done|]. intros (p & [Hp Hfree]%usable_candidate).
    rewrite Forall_forall in Hall. apply Hall in Hp.
    rewrite Hfree in Hp. by destruct Hp.
Qed.

Lemma insert_succeeds_iff_usable_witness :
  let sam1 := mkNode "Sam" (Some (new_node "Kim")) None in
  let lead := mkNode "Lead" (Some sam1) (Some (new_node "Sam")) in
  let lead' :=
    mkNode "Lead" (Some sam1)
      (Some (mkNode "Sam" (Some (new_node "Eve")) None)) in
  norm_side (Some "left") = Some LEFT
  /\ insert (mkTree (Some lead)) "Sam" "Eve" (Some "left")
     = (true, mkTree (Some lead'), [SlotOccupied "Sam" LEFT "Kim"])
  /\ (true = true <-> exists p, usable "Sam" LEFT lead p).
Proof.
  split; [reflexivity|]. split; [reflexivity|].
  apply (insert_succeeds_iff_usable
           (mkNode "Lead" (Some (mkNode "Sam" (Some (new_node "Kim")) None))
              (Some (new_node "Sam")))
           "Sam" "Eve" (Some "left") LEFT true
           (mkTree (Some (mkNode "Lead"
                            (Some (mkNode "Sam" (Some (new_node "Kim")) None))
                            (Some (mkNode "Sam" (Some (new_node "Eve"))
                                     None)))))
           [SlotOccupied "Sam" LEFT "Kim"]); reflexivity.
Defined.

(** X3. When no node of the tree is called [manager_name], a call with a
    valid side returns [False], prints the line of line 74 and nothing
    else, and leaves the tree as it was. *)
Theorem unknown_manager_is_reported t m e s sd :
  norm_side s = Some sd ->
  (forall p, name_at t p <> Some m) ->
  insert (mkTree (Some t)) m e s
  = (false, mkTree (Some t), [ManagerNotFound m]).
Proof. apply insert_absent. Qed.

Lemma unknown_manager_is_reported_witness :
  let t := mkNode "Alice" (Some (new_node "Bob")) None in
  norm_side (Some "RIGHT") = Some RIGHT
  /\ first_match "Eve" t = None
  /\ insert (mkTree (Some t)) "Eve" "Frank" (Some "RIGHT")
     = (false, mkTree (Some t), [ManagerNotFound "Eve"]).
Proof.
  split; [reflexivity|]. split; [reflexivity|].
  apply (unknown_manager_is_reported
           (mkNode "Alice" (Some (new_node "Bob")) None)
           "Eve" "Frank" (Some "RIGHT") RIGHT).
  - reflexivity.
  - apply first_match_None. reflexivity.
Defined.

(** X4. With a valid side and a root, what a call prints is a run of lines
    of line 58, all for [manager_name] and the requested side, followed by
    the line of line 74 exactly when the call returns [False] and the root
    is not called [manager_name]; a call that returns [True] may thus have
    printed errors, but never the line of line 74. *)
Theorem insert_output_shape t m e s sd ok self' out :
  norm_side s = Some sd ->
  insert (mkTree (Some t)) m e s = (ok, self', out) ->
  exists lines,
    Forall (occupied_line m sd) lines
    /\ out = lines ++ (if negb ok && negb (String.eqb (name t) m)
                       then [ManagerNotFound m] else []).
Proof. apply insert_lines. Qed.

Lemma insert_output_shape_witness :
  let bob := mkNode "Bob" (Some (new_node "Dan")) None in
  let alice := mkNode "Alice" (Some bob) None in
  norm_side (Some "left") = Some LEFT
  /\ insert (mkTree (Some alice)) "Bob" "Eve" (Some "left")
     = (false, mkTree (Some alice),
        [SlotOccupied "Bob" LEFT "Dan"; ManagerNotFound "Bob"])
  /\ exists lines,
       Forall (occupied_line "Bob" LEFT) lines
       /\ [SlotOccupied "Bob" LEFT "Dan"; ManagerNotFound "Bob"]
          = lines ++ (if negb false && negb (String.eqb (name alice) "Bob")
                      then [ManagerNotFound "Bob"] else []).
Proof.
  split; [reflexivity|]. split; [reflexivity|].
  apply (insert_output_shape
           (mkNode "Alice" (Some (mkNode "Bob" (Some (new_node "Dan")) None))
              None)
           "Bob" "Eve" (Some "left") LEFT false
           (mkTree (Some (mkNode "Alice"
                            (Some (mkNode "Bob" (Some (new_node "Dan")) None))
                            None)))); reflexivity.
Defined.

(** X5. A call of [insert] never fails in silence: whatever the tree and
    the arguments, a call that returns [False] has printed at least one
    line. *)
Theorem insert_failure_is_never_silent self m e s self' out :
  insert self m e s = (false, self', out) -> out <> [].
Proof.
  destruct (norm_side s) as [sd|] eqn:Hs.
  - destruct self as [[t|]].
    + rewrite (insert_search _ _ _ _ _ Hs).
      destruct (visit m sd t (candidates m t)) as [[p|] o] eqn:Hv; [done|].
      intros [= <- <-]. apply visit_not_found in Hv as [_ Hlen].
      rewrite candidates_unfold in Hlen.
      destruct (String.eqb (name t) m).
      * destruct o; [done|by rewrite app_nil_r].
      * by destruct o.
    + unfold insert. rewrite Hs. by intros [= <- <-].
  - rewrite insert_invalid_side by done. by intros [= <- <-].
Qed.

Lemma insert_failure_is_never_silent_witness :
  let alice := mkTree (Some (mkNode "Alice" (Some (new_node "Bob")) None)) in
  insert alice "Alice" "Carol" (Some "left")
  = (false, alice, [SlotOccupied "Alice" LEFT "Bob"])
  /\ [SlotOccupied "Alice" LEFT "Bob"] <> [].
Proof.
  split; [reflexivity|].
  apply (insert_failure_is_never_silent
           (mkTree (Some (mkNode "Alice" (Some (new_node "Bob")) None)))
           "Alice" "Carol" (Some "left")
           (mkTree (Some (mkNode "Alice" (Some (new_node "Bob")) None)))).
  reflexivity.
Defined.

Lemma before_prefix q p : q `prefix_of` p -> q <> p -> before q p.
Proof.
  unfold before. revert p. induction q as [|d q IH]; intros [|d' p] Hpre Hne;
    simpl; try done.
  - by apply prefix_nil_not in Hpre.
  - apply prefix_cons_inv_1 in Hpre as Hd. subst d'.
    apply prefix_cons_inv_2 in Hpre.
    destruct d; apply IH; (done || congruence).
Qed.

(** After the new node went to the first node called [m], that node is
    still the first the search stops at. *)
Lemma candidates_after_attach t m e sd p :
  first_match m t = Some p ->
  node_at t (p ++ [sd]) = None ->
  exists rest, candidates m (attach t p sd (new_node e)) = p :: rest.
Proof.
  intros Hfm Hfree. apply first_match_Some in Hfm as [Hn Hfirst].
  pose proof (name_at_is_Some _ _ _ Hn) as Hp.
  assert (forall q, q <> p ++ [sd] ->
                    name_at (attach t p sd (new_node e)) q = name_at t q)
    as Hsame.
  { intros q Hq. rewrite attach_name_at by done. by case_decide. }
  apply sorted_head_min; [apply candidates_sorted|..].
  - apply elem_of_candidates, topmost_spec. split.
    + rewrite Hsame; [done|]. intros Heq.
      apply (f_equal length) in Heq. rewrite length_app in Heq. simpl in Heq.
      lia.
    + intros q Hpre Hne. rewrite Hsame.
      * intros [->|Hb]%Hfirst; [done|].
        exact (before_asym _ _ Hb (before_prefix _ _ Hpre Hne)).
      * intros ->. apply prefix_length in Hpre.
        rewrite length_app in Hpre. simpl in Hpre. lia.
  - intros q [Hq _]%elem_of_candidates%topmost_spec.
    destruct (decide (q = p ++ [sd])) as [->|Hne].
    + right. apply before_prefix; [by apply prefix_app_r|].
      intros Heq. apply (f_equal length) in Heq.
      rewrite length_app in Heq. simpl in Heq. lia.
    + rewrite Hsame in Hq by done. by apply Hfirst.
Qed.

(** X6. A slot is filled once.  When the first node called [manager_name]
    has the requested slot free, a call puts the employee there in
    silence; the same call again, for any employee, finds the slot taken
    and its first line names the employee of the first call.  When that
    node is the root the second call prints that line only, returns
    [False] and changes nothing. *)
Theorem second_insert_names_first_employee t m e e2 s sd p :
  norm_side s = Some sd ->
  first_match m t = Some p ->
  node_at t (p ++ [sd]) = None ->
  insert (mkTree (Some t)) m e s
  = (true, mkTree (Some (attach t p sd (new_node e))), [])
  /\ exists ok self2 rest,
       insert (mkTree (Some (attach t p sd (new_node e)))) m e2 s
       = (ok, self2, SlotOccupied m sd e :: rest)
       /\ (p = [] ->
           ok = false /\ rest = []
           /\ self2 = mkTree (Some (attach t p sd (new_node e)))).
Proof.
  intros Hs Hfm Hfree. split; [by apply insert_first_free|].
  rewrite (insert_search _ _ _ _ _ Hs).
  destruct (candidates_after_attach t m e sd p Hfm Hfree) as [cs Hcs].
  pose proof (first_match_Some _ _ _ Hfm) as [Hn _].
  pose proof (name_at_is_Some _ _ _ Hn) as Hp.
  pose proof (attach_name_at t p sd e (p ++ [sd]) Hp Hfree) as Hnew.
  rewrite decide_True in Hnew by done. unfold name_at in Hnew.
  destruct (decide (p = [])) as [->|Hne].
  - rewrite candidates_unfold, name_attach.
    unfold name_at in Hn. simpl in Hn. injection Hn as Hn.
    rewrite Hn, String.eqb_refl. simpl visit. simpl in Hnew.
    destruct (getattr (setattr t sd (new_node e)) sd) as [c|]; [|done].
    injection Hnew as Hc. rewrite Hc. eexists _, _, _. by split.
  - rewrite Hcs. simpl visit.
    destruct (node_at (attach t p sd (new_node e)) (p ++ [sd])) as [c|];
      [|done].
    injection Hnew as Hc. rewrite Hc.
    destruct (visit m sd (attach t p sd (new_node e)) cs) as [[q|] o].
    + eexists _, _, _. by split.
    + eexists _, _, _. by split.
Qed.

Lemma second_insert_names_first_employee_witness :
  let t := new_node "Alice" in
  let t' := mkNode "Alice" (Some (new_node "Bob")) None in
  norm_side (Some "left") = Some LEFT
  /\ first_match "Alice" t = Some []
  /\ node_at t ([] ++ [LEFT]) = None
  /\ insert (mkTree (Some t)) "Alice" "Bob" (Some "left")
     = (true, mkTree (Some t'), [])
  /\ exists ok self2 rest,
       insert (mkTree (Some t')) "Alice" "Carol" (Some "left")
       = (ok, self2, SlotOccupied "Alice" LEFT "Bob" :: rest)
       /\ (([] : path) = [] ->
           ok = false /\ rest = [] /\ self2 = mkTree (Some t')).
Proof.
  split; [reflexivity|]. split; [reflexivity|]. split; [reflexivity|].
  apply (second_insert_names_first_employee (new_node "Alice") "Alice" "Bob"
           "Carol" (Some "left") LEFT []); reflexivity.
Defined.

(** ** Further properties of [print_tree] *)

Lemma print_node_attach t p sd e n level :
  name_at t p = Some n ->
  node_at t (p ++ [sd]) = None ->
  exists l1 l2,
    print_node t level = l1 ++ l2
    /\ print_node (attach t p sd (new_node e)) level
       = l1 ++ NodeLine (level + S (length p)) e :: l2
    /\ NodeLine (level + length p) n ∈ l1.
Proof.
  revert t level. induction p as [|d p IH]; intros t level Hn Hfree.
  - unfold name_at in Hn. simpl in Hn, Hfree. injection Hn as <-.
    destruct (getattr t sd) eqn:Hget; [done|].
    rewrite Nat.add_0_r. destruct t as [n l r], sd; simpl in *; subst.
    + exists [NodeLine level n], (match r with
                                  | Some r0 => print_node r0 (level + 1)
                                  | None => []
                                  end).
      split_and!; [done|done|by left].
    + exists (NodeLine level n :: match l with
                                  | Some l0 => print_node l0 (level + 1)
                                  | None => []
                                  end), [].
      split_and!; [done|done|by left].
  - rewrite name_at_cons in Hn. simpl in Hfree.
    destruct (getattr t d) as [c|] eqn:Hget; [|done]. simpl in Hn.
    destruct (IH c (level + 1) Hn Hfree) as (a1 & a2 & Hc & Hc' & Hin).
    replace (level + 1 + S (length p)) with (level + S (length (d :: p)))
      in Hc' by (simpl; lia).
    replace (level + 1 + length p) with (level + length (d :: p))
      in Hin by (simpl; lia).
    destruct t as [nt l r], d; simpl in Hget; subst.
    + exists (NodeLine level nt :: a1),
        (a2 ++ match r with
               | Some r0 => print_node r0 (level + 1)
               | None => []
               end).
      cbn [print_node attach name left right]. rewrite Hc, Hc'.
      split_and!; [simpl; by rewrite <- (assoc_L (++))| |by right].
      simpl. by rewrite <- (assoc_L (++)).
    + exists (NodeLine level nt :: match l with
                                   | Some l0 => print_node l0 (level + 1)
                                   | None => []
                                   end ++ a1), a2.
      cbn [print_node attach name left right]. rewrite Hc, Hc'.
      split_and!; [simpl; by rewrite <- (assoc_L (++))| |set_solver].
      simpl. by rewrite <- (assoc_L (++)).
Qed.

(** X7. A call of [insert] that returns [True] adds one line to the
    listing of [print_tree] and moves no other: the new line carries the
    employee's name, comes after the line of a node called
    [manager_name], and is one level deeper than that line. *)
Theorem listing_after_insert self m e s self' out :
  insert self m e s = (true, self', out) ->
  exists l1 l2 level,
    print_tree self = l1 ++ l2
    /\ print_tree self' = l1 ++ NodeLine (S level) e :: l2
    /\ NodeLine level m ∈ l1.
Proof.
  intros H. apply insert_effect in H.
  destruct H as (t & sd & p & Ht & Hs & Hn & Hfree & Ht').
  destruct (print_node_attach t p sd e m 0 Hn Hfree)
    as (l1 & l2 & H1 & H2 & Hin).
  exists l1, l2, (length p). unfold print_tree. rewrite Ht, Ht'. done.
Qed.

Lemma listing_after_insert_witness :
  let t := mkTree (Some (mkNode "Alice" (Some (new_node "Bob")) None)) in
  let t' :=
    mkTree (Some (mkNode "Alice"
                    (Some (mkNode "Bob" None (Some (new_node "Dan")))) None)) in
  insert t "Bob" "Dan" (Some "right") = (true, t', [])
  /\ exists l1 l2 level,
       print_tree t = l1 ++ l2
       /\ print_tree t' = l1 ++ NodeLine (S level) "Dan" :: l2
       /\ NodeLine level "Bob" ∈ l1.
Proof.
  split; [reflexivity|].
  apply (listing_after_insert
           (mkTree (Some (mkNode "Alice" (Some (new_node "Bob")) None)))
           "Bob" "Dan" (Some "right") _ []).
  reflexivity.
Defined.









(** ** Further properties on the object store *)

(** X9. [insert] called with an explicit [current_node] that is not the
    root searches the subtree of that node only: when no node there is
    called [manager_name] the call returns [False], changes no object and
    prints nothing at all, the line of line 74 being kept for the frame of
    the root. *)
Theorem store_insert_below_root_is_silent fuel h rt r t fp m e s sd :
  Store.is_tree h r t fp ->
  NoDup fp ->
  rt ∉ fp ->
  height t <= fuel ->
  norm_side s = Some sd ->
  (forall p, name_at t p <> Some m) ->
  Store.insert fuel h (Some rt) m e s (Some r) = Some (false, h, []).
Proof.
  intros Ht Hnd Hrt Hfuel Hs Hno. apply first_match_None in Hno.
  pose proof (insert_at_absent m e s sd false t Hs Hno) as Hins.
  destruct (store_insert_at m e sd rt t fuel h s false r fp _ _ _
              Ht Hnd Hrt Hfuel Hs Hins) as (h' & -> & Hg).
  simpl in Hg. by subst h'.
Qed.

Lemma store_insert_below_root_is_silent_witness :
  let h : Store.heap :=
    <[1%positive := Store.mkObject "Alice" (Some 2%positive) None]>
      (<[2%positive := Store.new_object "Bob"]> ∅) in
  Store.is_tree h 2%positive (new_node "Bob") [2%positive]
  /\ NoDup [2%positive]
  /\ (1%positive ∉ [2%positive])
  /\ height (new_node "Bob") <= 1
  /\ norm_side (Some "left") = Some LEFT
  /\ Store.insert 1 h (Some 1%positive) "Alice" "Eve" (Some "left")
       (Some 2%positive)
     = Some (false, h, []).
Proof.
  assert (Store.is_tree
            (<[1%positive := Store.mkObject "Alice" (Some 2%positive) None]>
               (<[2%positive := Store.new_object "Bob"]> ∅))
            2%positive (new_node "Bob") [2%positive]) as Ht.
  { exists (Store.new_object "Bob"), [], []. split_and!; reflexivity. }
  assert (NoDup [2%positive]) as Hnd by apply NoDup_singleton.
  assert (1%positive ∉ [2%positive]) as Hrt
      by (intros H%list_elem_of_singleton; discriminate H).
  split; [exact Ht|]. split; [exact Hnd|]. split; [exact Hrt|].
  split; [simpl; lia|]. split; [reflexivity|].
  apply (store_insert_below_root_is_silent 1 _ 1%positive 2%positive
           (new_node "Bob") [2%positive] "Alice" "Eve" (Some "left") LEFT
           Ht Hnd Hrt).
  - simpl. lia.
  - reflexivity.
  - apply first_match_None. reflexivity.
Defined.




(** X11. On any store whatever, a tree or not: a call of [insert] that
    returns [True] has created one object, a leaf with the employee's
    name, and stored its reference in the requested field, empty until
    then, of one object called [manager_name]; nothing else has changed.
    A call that returns [False] has changed nothing. *)
Theorem store_insert_changes_one_field fuel h rt m e s cur ok h' out :
  Store.insert fuel h rt m e s cur = Some (ok, h', out) ->
  if ok
  then exists sd a o,
         norm_side s = Some sd
         /\ h !! a = Some o
         /\ Store.obj_name o = m
         /\ Store.obj_getattr o sd = None
         /\ h' = <[a := Store.obj_setattr o sd (fresh (dom h))]>
                  (<[fresh (dom h) := Store.new_object e]> h)
  else h' = h.
Proof.
  revert s cur ok h' out. induction fuel as [|fuel IH];
    intros s cur ok h' out; [done|]. cbn [Store.insert].
  destruct (norm_side s) as [sd|] eqn:Hs; [|by intros [= <- <- <-]].
  destruct rt as [rt|]; [|by intros [= <- <- <-]].
  cbn zeta. destruct (h !! default rt cur) as [o|] eqn:Ho; [|done].
  cbn [mbind option_bind].
  destruct (String.eqb_spec (Store.obj_name o) m) as [Hn|Hn].
  { destruct (Store.obj_getattr o sd) as [c|] eqn:Hget.
    - destruct (h !! c); [|done]. by intros [= <- <- <-].
    - intros [= <- <- <-]. by exists sd, (default rt cur), o. }
  assert (forall c res,
            match c with
            | Some l =>
                Store.insert fuel h (Some rt) m e (Some (side_str sd)) (Some l)
            | None => Some (false, h, [])
            end = Some res ->
            if res.1.1
            then exists sd0 a o0,
                   Some sd = Some sd0
                   /\ h !! a = Some o0 /\ Store.obj_name o0 = m
                   /\ Store.obj_getattr o0 sd0 = None
                   /\ res.1.2
                      = <[a := Store.obj_setattr o0 sd0 (fresh (dom h))]>
                          (<[fresh (dom h) := Store.new_object e]> h)
            else res.1.2 = h) as Hchild.
  { intros [l|] [[b h1] o1] H; simpl.
    - apply IH in H. destruct b; [|done].
      destruct H as (sd0 & a & o0 & Hs0 & H). rewrite norm_side_str in Hs0.
      by exists sd0, a, o0.
    - by injection H as <- <- <-. }
  destruct (match Store.obj_left o with
            | Some l => _
            | None => _
            end) as [[[okl h1] outl]|] eqn:El; [|done].
  apply Hchild in El. cbn [mbind option_bind]. simpl in El.
  destruct okl.
  { intros [= <- <- <-]. destruct El as (sd0 & a & o0 & [= <-] & H).
    by exists sd, a, o0. }
  subst h1. rewrite Ho. cbn [mbind option_bind].
  destruct (match Store.obj_right o with
            | Some r => _
            | None => _
            end) as [[[okr h2] outr]|] eqn:Er; [|done].
  apply Hchild in Er. cbn [mbind option_bind]. simpl in Er.
  destruct okr; intros [= <- <- <-]; [|done].
  destruct Er as (sd0 & a & o0 & [= <-] & H). by exists sd, a, o0.
Qed.

Lemma store_insert_changes_one_field_witness :
  let h : Store.heap := <[1%positive := Store.new_object "Alice"]> ∅ in
  Store.insert 1 h (Some 1%positive) "Alice" "Bob" (Some "left") None
  = Some (true,
          <[1%positive := Store.mkObject "Alice" (Some (fresh (dom h))) None]>
            (<[fresh (dom h) := Store.new_object "Bob"]> h), [])
  /\ exists sd a o,
       norm_side (Some "left") = Some sd
       /\ h !! a = Some o
       /\ Store.obj_name o = "Alice"
       /\ Store.obj_getattr o sd = None
       /\ <[1%positive := Store.mkObject "Alice" (Some (fresh (dom h))) None]>
            (<[fresh (dom h) := Store.new_object "Bob"]> h)
          = <[a := Store.obj_setattr o sd (fresh (dom h))]>
              (<[fresh (dom h) := Store.new_object "Bob"]> h).
Proof.
  split; [reflexivity|].
  apply (store_insert_changes_one_field 1
           (<[1%positive := Store.new_object "Alice"]> ∅) (Some 1%positive)
           "Alice" "Bob" (Some "left") None true _ []).
  reflexivity.
Defined.

(** ** The interactive program *)

Lemma after_session tree tree1 out1 res :
  turn tree out1 tree1 ->
  session tree1 res.1 res.2 ->
  session tree (after out1 res).1 (after out1 res).2.
Proof. intros Ht Hs. simpl. by eapply session_turn. Qed.

Ltac session_stop prompts bye :=
  simpl; apply (session_end _ prompts bye);
  [repeat (apply Forall_cons; split; [first [by left | right; by eexists]|]);
   apply Forall_nil_2
  |first [by left | by right]].

Ltac session_go IH ctor :=
  eapply after_session; [ctor | apply IH; simpl in *; lia].

Lemma loop_session_upto n :
  forall stdin tree,
    length stdin <= n ->
    session tree (company_directory_loop tree stdin).1
      (company_directory_loop tree stdin).2.
Proof.
  induction n as [|n IH]; intros stdin tree Hlen.
  { destruct stdin; [|simpl in Hlen; lia].
    session_stop [Menu; Ask AskChoice] Interrupted. }
  destruct stdin as [|[c|] rest];
    [session_stop [Menu; Ask AskChoice] Interrupted| |
     session_stop [Menu; Ask AskChoice] Interrupted].
  cbn [company_directory_loop].
  destruct (String.eqb (Str.strip c) "1").
  { destruct rest as [|[l1|] rest1];
      [session_stop [Menu; Ask AskChoice; Ask AskLeadName] Interrupted| |
       session_stop [Menu; Ask AskChoice; Ask AskLeadName] Interrupted].
    destruct (String.eqb_spec (Str.strip l1) "") as [He|Hne].
    { session_go IH ltac:(apply turn_name_empty). }
    destruct (root tree) as [t|] eqn:Hroot.
    - destruct rest1 as [|[l2|] rest2];
        [session_stop [Menu; Ask AskChoice; Ask AskLeadName; Ask AskReplace]
           Interrupted| |
         session_stop [Menu; Ask AskChoice; Ask AskLeadName; Ask AskReplace]
           Interrupted].
      destruct (negb (String.eqb (Str.lower (Str.strip l2)) "y")).
      + session_go IH ltac:(apply turn_keep_lead; rewrite Hroot; eauto).
      + session_go IH ltac:(apply turn_replace_lead;
                            [rewrite Hroot; eauto|done]).
    - session_go IH ltac:(by apply turn_first_lead). }
  destruct (String.eqb (Str.strip c) "2").
  { destruct (root tree) as [t|] eqn:Hroot.
    - destruct rest as [|[l1|] rest1];
        [session_stop [Menu; Ask AskChoice; Ask AskManager] Interrupted| |
         session_stop [Menu; Ask AskChoice; Ask AskManager] Interrupted].
      destruct rest1 as [|[l2|] rest2];
        [session_stop [Menu; Ask AskChoice; Ask AskManager; Ask AskEmployee]
           Interrupted| |
         session_stop [Menu; Ask AskChoice; Ask AskManager; Ask AskEmployee]
           Interrupted].
      destruct rest2 as [|[l3|] rest3];
        [session_stop [Menu; Ask AskChoice; Ask AskManager; Ask AskEmployee;
                       Ask AskSide] Interrupted| |
         session_stop [Menu; Ask AskChoice; Ask AskManager; Ask AskEmployee;
                       Ask AskSide] Interrupted].
      destruct (insert tree (Str.strip l1) (Str.strip l2)
                  (Some (Str.lower (Str.strip l3))))
        as [[success tree'] out] eqn:Hins.
      session_go IH ltac:(apply turn_insert; [rewrite Hroot; eauto|done]).
    - session_go IH ltac:(by apply turn_need_lead). }
  destruct (String.eqb (Str.strip c) "3").
  { session_go IH ltac:(apply turn_print). }
  destruct (String.eqb (Str.strip c) "4").
  { session_stop [Menu; Ask AskChoice] GoodBye. }
  session_go IH ltac:(apply turn_invalid).
Qed.

(** Every run of the program is a session. *)
Lemma loop_session tree stdin :
  session tree (company_directory_loop tree stdin).1
    (company_directory_loop tree stdin).2.
Proof. by apply (loop_session_upto (length stdin)). Qed.

Lemma turn_no_farewell tree out tree1 :
  turn tree out tree1 -> (GoodBye ∉ out) /\ (Interrupted ∉ out).
Proof.
  destruct 1 as [| | | | |? ? ? ? [] ? ? ? ?| |];
    split; intros Hin;
    repeat (apply elem_of_cons in Hin as [Hin|Hin]; [discriminate Hin|]);
    repeat (apply elem_of_app in Hin as [Hin|Hin]);
    repeat (apply elem_of_cons in Hin as [Hin|Hin]; [discriminate Hin|]);
    try (by apply elem_of_nil in Hin);
    by apply list_elem_of_fmap in Hin as (? & [=] & _).
Qed.

Lemma session_farewell tree tree' out :
  session tree tree' out ->
  exists pre bye,
    out = pre ++ [bye]
    /\ (bye = GoodBye \/ bye = Interrupted)
    /\ (GoodBye ∉ pre) /\ (Interrupted ∉ pre).
Proof.
  induction 1 as [tree prompts bye Hp Hbye|tree tree1 tree' out1 out Ht _ IH].
  - exists prompts, bye. split_and!; [done|done|..];
      intros Hin; rewrite Forall_forall in Hp;
      by destruct (Hp _ Hin) as [?|[? ?]].
  - destruct IH as (pre & bye & -> & Hbye & Hg & Hi).
    destruct (turn_no_farewell _ _ _ Ht) as [Hg1 Hi1].
    exists (out1 ++ pre), bye. rewrite (assoc_L (++)).
    split_and!; [done|done|..]; rewrite elem_of_app; tauto.
Qed.

Lemma string_app_assoc (s1 s2 s3 : string) :
  s1 +:+ (s2 +:+ s3) = (s1 +:+ s2) +:+ s3.
Proof.
  induction s1 as [|a s1 IH]; [done|].
  change (String a (s1 +:+ (s2 +:+ s3)) = String a ((s1 +:+ s2) +:+ s3)).
  by f_equal.
Qed.

Lemma stdout_app out1 out2 :
  stdout (out1 ++ out2) = stdout out1 +:+ stdout out2.
Proof.
  induction out1 as [|o out1 IH]; simpl; [done|].
  by rewrite IH, string_app_assoc.
Qed.

(** X12. Whatever standard input holds, [company_directory] ends, and the
    last thing it writes is a farewell, the one of choice 4 or the one of
    an interrupted or exhausted input; it writes no farewell before that.
    On the screen the run ends with the line "Good Bye!". *)
Theorem company_directory_ends_with_one_farewell stdin :
  (exists pre bye,
     (company_directory stdin).2 = pre ++ [bye]
     /\ (bye = GoodBye \/ bye = Interrupted)
     /\ (GoodBye ∉ pre) /\ (Interrupted ∉ pre))
  /\ exists shown,
       stdout (company_directory stdin).2 = shown +:+ "Good Bye!" +:+ nl.
Proof.
  destruct (session_farewell _ _ _ (loop_session empty_tree stdin))
    as (pre & bye & Hout & Hbye & Hg & Hi).
  split; [by exists pre, bye|].
  unfold company_directory. rewrite Hout, stdout_app.
  destruct Hbye as [-> | ->].
  - exists (stdout pre). by f_equal.
  - exists (stdout pre +:+ nl). rewrite <- string_app_assoc. by f_equal.
Qed.

Lemma insert_with_root_no_NoRoot self m e s :
  is_Some (root self) -> NoRoot ∉ (insert self m e s).2.
Proof.
  destruct self as [[t|]]; intros [? [=]].
  destruct (norm_side s) as [sd|] eqn:Hs.
  - destruct (insert (mkTree (Some t)) m e s) as [[ok self'] out] eqn:E.
    destruct (insert_lines _ _ _ _ _ _ _ _ Hs E) as (lines & Hl & ->).
    simpl. rewrite elem_of_app. intros [Hin|Hin].
    + rewrite Forall_forall in Hl. by destruct (Hl _ Hin).
    + destruct (negb ok && negb (String.eqb (name t) m)).
      * by apply list_elem_of_singleton in Hin.
      * by apply elem_of_nil in Hin.
  - rewrite insert_invalid_side by done. simpl.
    by intros ?%list_elem_of_singleton.
Qed.

Lemma print_node_no_NoRoot t level : NoRoot ∉ print_node t level.
Proof.
  rewrite print_node_positions. by intros (? & [=] & _)%list_elem_of_fmap.
Qed.

Lemma turn_no_NoRoot tree out tree1 :
  turn tree out tree1 -> Core NoRoot ∉ out.
Proof.
  destruct 1 as [| | | | |tree l1 l2 l3 ok tree' o Hroot Hins| tree|];
    intros Hin;
    repeat (apply elem_of_cons in Hin as [Hin|Hin]; [discriminate Hin|]);
    repeat (apply elem_of_app in Hin as [Hin|Hin]);
    repeat (apply elem_of_cons in Hin as [Hin|Hin]; [discriminate Hin|]);
    try (by apply elem_of_nil in Hin).
  - apply list_elem_of_fmap in Hin as (ev & [= <-] & Hev).
    apply (insert_with_root_no_NoRoot tree (Str.strip l1) (Str.strip l2)
             (Some (Str.lower (Str.strip l3))) Hroot).
    by rewrite Hins.
  - destruct ok; [|by apply elem_of_nil in Hin].
    by apply list_elem_of_singleton in Hin.
  - apply list_elem_of_fmap in Hin as (ev & [= <-] & Hev).
    unfold print_tree in Hev. destruct (root tree).
    + by apply print_node_no_NoRoot in Hev.
    + by apply list_elem_of_singleton in Hev.
Qed.

Lemma session_no_NoRoot tree tree' out :
  session tree tree' out -> Core NoRoot ∉ out.
Proof.
  induction 1 as [tree prompts bye Hp Hbye|tree tree1 tree' out1 out Ht _ IH].
  - rewrite elem_of_app. intros [Hin|Hin].
    + rewrite Forall_forall in Hp. by destruct (Hp _ Hin) as [?|[? ?]].
    + apply list_elem_of_singleton in Hin. by destruct Hbye; subst.
  - rewrite elem_of_app. intros [Hin|Hin]; [|done].
    by apply turn_no_NoRoot in Ht.
Qed.

(** X13. The program never lets [insert] run without a root: choice 2
    asks for a team lead first, so the line of line 48 is never written,
    whatever standard input holds. *)
Theorem company_directory_never_reports_no_root stdin :
  Core NoRoot ∉ (company_directory stdin).2.
Proof. eapply session_no_NoRoot, loop_session. Qed.

(** Stripping and lower-casing a second time change nothing. *)

Lemma lower_char_lower_char c :
  Str.lower_char (Str.lower_char c) = Str.lower_char c.
Proof. by destruct c as [[] [] [] [] [] [] [] []]. Qed.

Lemma lower_lower s : Str.lower (Str.lower s) = Str.lower s.
Proof.
  induction s as [|c s IH]; simpl; [done|].
  by rewrite lower_char_lower_char, IH.
Qed.

Lemma lstrip_clean s : starts_clean (Str.lstrip s).
Proof.
  induction s as [|c s IH]; simpl; [done|].
  by destruct (Str.isspace c) eqn:E.
Qed.

Lemma lstrip_of_clean s : starts_clean s -> Str.lstrip s = s.
Proof. destruct s as [|c s]; simpl; [done|]. by intros ->. Qed.

Lemma rstrip_clean s : starts_clean s -> starts_clean (Str.rstrip s).
Proof.
  destruct s as [|c s]; simpl; [done|]. intros Hc.
  destruct (Str.rstrip s); [by rewrite Hc|done].
Qed.

Lemma rstrip_rstrip s : Str.rstrip (Str.rstrip s) = Str.rstrip s.
Proof.
  induction s as [|c s IH]; simpl; [done|].
  destruct (Str.rstrip s) as [|c' r] eqn:E.
  - destruct (Str.isspace c) eqn:Ec; simpl; [done|by rewrite Ec].
  - change (Str.rstrip (String c (String c' r)))
      with (match Str.rstrip (String c' r) with
            | EmptyString =>
                if Str.isspace c then EmptyString else String c EmptyString
            | r0 => String c r0
            end).
    by rewrite IH.
Qed.

Lemma strip_strip s : Str.strip (Str.strip s) = Str.strip s.
Proof.
  unfold Str.strip.
  rewrite (lstrip_of_clean (Str.rstrip (Str.lstrip s)))
    by apply rstrip_clean, lstrip_clean.
  apply rstrip_rstrip.
Qed.

(** A side that was stripped and lower-cased is valid only as "left" or
    "right". *)
Lemma norm_side_normalised l sd :
  norm_side (Some (Str.lower (Str.strip l))) = Some sd ->
  Str.lower (Str.strip l) = side_str sd.
Proof.
  assert (Str.lower (Str.strip (Str.lower (Str.strip l)))
          = Str.lower (Str.strip l)) as Hfix.
  { rewrite (strip_lower (Str.strip l)), strip_strip. apply lower_lower. }
  unfold norm_side. rewrite Hfix.
  destruct (String.eqb_spec (Str.lower (Str.strip l)) "left") as [->|_].
  { by intros [= <-]. }
  destruct (String.eqb_spec (Str.lower (Str.strip l)) "right") as [->|_].
  { by intros [= <-]. }
  done.
Qed.

Lemma insert_keeps_root_name self m e s t :
  root self = Some t ->
  exists t', root (insert self m e s).1.2 = Some t' /\ name t' = name t.
Proof.
  intros Ht. destruct (insert self m e s) as [[ok self'] out] eqn:E.
  destruct (insert_extends _ _ _ _ _ _ _ _ E Ht) as (t' & Ht' & Hext).
  exists t'. split; [done|].
  specialize (Hext [] (name t) eq_refl). by injection Hext.
Qed.

Lemma turn_keeps_lead_clean tree out tree1 :
  turn tree out tree1 ->
  (forall t, root tree = Some t ->
             name t <> "" /\ Str.strip (name t) = name t) ->
  forall t, root tree1 = Some t ->
            name t <> "" /\ Str.strip (name t) = name t.
Proof.
  destruct 1 as [| |tree l1 _ Hne|tree l1 _ Hne|
                 |tree l1 l2 l3 ok tree' o [t0 Hroot] Hins| |];
    intros Hok t Ht; try (by apply Hok).
  - injection Ht as <-. simpl. by rewrite strip_strip.
  - injection Ht as <-. simpl. by rewrite strip_strip.
  - destruct (insert_keeps_root_name tree (Str.strip l1) (Str.strip l2)
                (Some (Str.lower (Str.strip l3))) t0 Hroot) as (t' & Ht' & Hn).
    rewrite Hins in Ht'. simpl in Ht'. rewrite Ht in Ht'. injection Ht' as <-.
    rewrite Hn. by apply Hok.
Qed.

Lemma session_keeps_lead_clean tree tree' out :
  session tree tree' out ->
  (forall t, root tree = Some t ->
             name t <> "" /\ Str.strip (name t) = name t) ->
  forall t, root tree' = Some t ->
            name t <> "" /\ Str.strip (name t) = name t.
Proof.
  induction 1 as [|tree tree1 tree' out1 out Ht _ IH]; [done|].
  intros Hok. apply IH. by eapply turn_keeps_lead_clean.
Qed.

(** X14. The team lead that [company_directory] leaves has a name that is
    not empty and has no space at either end, whatever standard input
    holds: choice 1 strips the name and refuses the empty one, and no
    other choice touches the name of the root. *)
Theorem company_directory_lead_name_is_clean stdin t :
  root (company_directory stdin).1 = Some t ->
  name t <> "" /\ Str.strip (name t) = name t.
Proof.
  apply (session_keeps_lead_clean empty_tree _ _ (loop_session _ stdin)).
  by intros t0 [=].
Qed.

Lemma company_directory_lead_name_is_clean_witness :
  let stdin := [Line "1"; Line "   "; Line "1"; Line "  Alice "; Line "4"] in
  root (company_directory stdin).1 = Some (new_node "Alice")
  /\ "Alice" <> "" /\ Str.strip "Alice" = "Alice".
Proof.
  split; [reflexivity|].
  apply (company_directory_lead_name_is_clean
           [Line "1"; Line "   "; Line "1"; Line "  Alice "; Line "4"]
           (new_node "Alice")).
  reflexivity.
Defined.

Lemma turn_side_upper tree out tree1 who side boss :
  turn tree out tree1 ->
  EmployeeAdded who side boss ∈ out ->
  side = "LEFT" \/ side = "RIGHT".
Proof.
  destruct 1 as [| | | | |tree l1 l2 l3 ok tree' o _ Hins| |];
    intros Hin;
    repeat (apply elem_of_cons in Hin as [Hin|Hin]; [discriminate Hin|]);
    repeat (apply elem_of_app in Hin as [Hin|Hin]);
    repeat (apply elem_of_cons in Hin as [Hin|Hin]; [discriminate Hin|]);
    try (by apply elem_of_nil in Hin);
    try (by apply list_elem_of_fmap in Hin as (? & [=] & _)).
  destruct ok; [|by apply elem_of_nil in Hin].
  apply list_elem_of_singleton in Hin. injection Hin as -> -> ->.
  apply insert_effect in Hins as (t & sd & p & _ & Hs & _).
  rewrite (norm_side_normalised _ _ Hs). destruct sd; auto.
Qed.

Lemma session_side_upper tree tree' out who side boss :
  session tree tree' out ->
  EmployeeAdded who side boss ∈ out ->
  side = "LEFT" \/ side = "RIGHT".
Proof.
  induction 1 as [tree prompts bye Hp Hbye|tree tree1 tree' out1 out Ht _ IH].
  - rewrite elem_of_app. intros [Hin|Hin].
    + rewrite Forall_forall in Hp. by destruct (Hp _ Hin) as [?|[? ?]].
    + apply list_elem_of_singleton in Hin. by destruct Hbye; subst.
  - rewrite elem_of_app. intros [Hin|Hin]; [|by apply IH].
    by eapply turn_side_upper.
Qed.

(** X15. Every confirmation that an employee was added names the side as
    LEFT or RIGHT and nothing else, however the side was typed. *)
Theorem company_directory_confirms_left_or_right stdin who side boss :
  EmployeeAdded who side boss ∈ (company_directory stdin).2 ->
  side = "LEFT" \/ side = "RIGHT".
Proof. eapply session_side_upper, loop_session. Qed.

Lemma company_directory_confirms_left_or_right_witness :
  let stdin := [Line "1"; Line "Alice"; Line "2"; Line "Alice"; Line "Bob";
                Line "  RiGhT "] in
  EmployeeAdded "Bob" "RIGHT" "Alice" ∈ (company_directory stdin).2
  /\ ("RIGHT" = "LEFT" \/ "RIGHT" = "RIGHT").
Proof.
  assert (EmployeeAdded "Bob" "RIGHT" "Alice"
          ∈ (company_directory
               [Line "1"; Line "Alice"; Line "2"; Line "Alice"; Line "Bob";
                Line "  RiGhT "]).2) as Hin.
  { vm_compute. do 9 apply list_elem_of_further. apply list_elem_of_here. }
  split; [exact Hin|].
  exact (company_directory_confirms_left_or_right _ _ _ _ Hin).
Defined.

Lemma announced_app n out1 out2 :
  announced n (out1 ++ out2) = announced (announced n out1) out2.
Proof. apply foldl_app. Qed.

Lemma announced_neutral n out : Forall neutral out -> announced n out = n.
Proof.
  intros H. revert n. induction H as [|o out Ho _ IH]; intros n; [done|].
  simpl. destruct o; try done; apply IH.
Qed.

Lemma turn_announced tree out tree1 :
  turn tree out tree1 -> nodes tree1 = announced (nodes tree) out.
Proof.
  destruct 1 as [| | | | |tree l1 l2 l3 ok tree' o _ Hins|tree|]; try done.
  - rewrite !announced_app. simpl announced at 2.
    rewrite (announced_neutral _ (Core <$> o))
      by (apply Forall_fmap, Forall_true; done).
    apply insert_effect in Hins. destruct ok.
    + destruct Hins as (t & sd & p & Ht & _ & Hn & Hfree & Ht').
      unfold nodes. rewrite Ht, Ht'. simpl.
      rewrite attach_size by eauto using name_at_is_Some. simpl. lia.
    + by subst tree'.
  - rewrite !announced_app. simpl announced at 2.
    rewrite (announced_neutral _ (Core <$> print_tree tree))
      by (apply Forall_fmap, Forall_true; done).
    done.
Qed.

Lemma session_announced tree tree' out :
  session tree tree' out -> nodes tree' = announced (nodes tree) out.
Proof.
  induction 1 as [tree prompts bye Hp Hbye|tree tree1 tree' out1 out Ht _ IH].
  - rewrite announced_neutral; [done|]. apply Forall_app. split.
    + eapply Forall_impl; [exact Hp|]. by intros o [->|[p ->]].
    + apply Forall_singleton. by destruct Hbye; subst.
  - by rewrite announced_app, <- (turn_announced _ _ _ Ht).
Qed.

(** X16. The confirmations account for the tree: the number of nodes when
    the program ends is what its confirmations add up to, one for the last
    team lead announced and one more for every employee announced after
    it; replacing the team lead discards everyone. *)
Theorem company_directory_confirmations_count_nodes stdin :
  nodes (company_directory stdin).1 = announced 0 (company_directory stdin).2.
Proof. apply (session_announced empty_tree), loop_session. Qed.

Lemma orderly_core known evs rest :
  (known = true -> EmptyTeam ∉ evs) ->
  orderly known ((Core <$> evs) ++ rest) = orderly known rest.
Proof.
  induction evs as [|ev evs IH]; intros Hno; [done|]. csimpl.
  assert (orderly known ((Core <$> evs) ++ rest) = orderly known rest) as ->.
  { apply IH. intros Hk Hin. apply (Hno Hk). by right. }
  destruct ev; try done. destruct known; [|done].
  destruct (Hno eq_refl). by left.
Qed.

Lemma insert_no_EmptyTeam self m e s : EmptyTeam ∉ (insert self m e s).2.
Proof.
  destruct (norm_side s) as [sd|] eqn:Hs.
  - destruct self as [[t|]].
    + destruct (insert (mkTree (Some t)) m e s) as [[ok self'] out] eqn:E.
      destruct (insert_lines _ _ _ _ _ _ _ _ Hs E) as (lines & Hl & ->).
      simpl. rewrite elem_of_app. intros [Hin|Hin].
      * rewrite Forall_forall in Hl. by destruct (Hl _ Hin).
      * destruct (negb ok && negb (String.eqb (name t) m)).
        -- by apply list_elem_of_singleton in Hin.
        -- by apply elem_of_nil in Hin.
    + unfold insert. rewrite Hs. simpl. by intros ?%list_elem_of_singleton.
  - rewrite insert_invalid_side by done. simpl.
    by intros ?%list_elem_of_singleton.
Qed.

Lemma turn_orderly tree out1 tree1 out2 :
  turn tree out1 tree1 ->
  orderly (has_lead tree1) out2 = true ->
  orderly (has_lead tree) (out1 ++ out2) = true.
Proof.
  destruct 1 as [| | | |tree Hroot
                 |tree l1 l2 l3 ok tree' o [t0 Hroot] Hins|tree|];
    intros H2; try done.
  - unfold has_lead in *. by rewrite Hroot in *.
  - destruct (insert_keeps_root_name tree (Str.strip l1) (Str.strip l2)
                (Some (Str.lower (Str.strip l3))) t0 Hroot) as (t' & Ht' & _).
    rewrite Hins in Ht'. simpl in Ht'.
    unfold has_lead in *. rewrite Hroot. rewrite Ht' in H2.
    rewrite <- !(assoc_L (++)). simpl. rewrite orderly_core.
    + by destruct ok.
    + intros _ Hin.
      apply (insert_no_EmptyTeam tree (Str.strip l1) (Str.strip l2)
               (Some (Str.lower (Str.strip l3)))).
      by rewrite Hins.
  - rewrite <- !(assoc_L (++)). simpl. rewrite orderly_core; [done|].
    unfold has_lead, print_tree. destruct (root tree); [|done].
    intros _. rewrite print_node_positions.
    by intros (? & [=] & _)%list_elem_of_fmap.
Qed.

Lemma session_orderly tree tree' out :
  session tree tree' out -> orderly (has_lead tree) out = true.
Proof.
  induction 1 as [tree prompts bye Hp Hbye|tree tree1 tree' out1 out Ht _ IH].
  - induction Hp as [|o prompts [->|[p ->]] _ IHp]; simpl; [|done..].
    by destruct Hbye; subst.
  - by eapply turn_orderly.
Qed.

Lemma orderly_after_lead known pre lead post :
  orderly known (pre ++ LeadAdded lead :: post) = true ->
  orderly true post = true.
Proof.
  revert known. induction pre as [|o pre IH]; intros known; simpl; [done|].
  destruct o as [| | | | |[]| | | | | |]; eauto;
    intros [_ H]%andb_true_iff; eauto.
Qed.

Lemma orderly_known post :
  orderly true post = true -> (NeedLead ∉ post) /\ (Core EmptyTeam ∉ post).
Proof.
  induction post as [|o post IH]; simpl.
  - intros _. split; apply not_elem_of_nil.
  - rewrite !not_elem_of_cons.
    destruct o as [| | | | |[]| | | | | |]; try done;
      intros [? ?]%IH; by split_and!.
Qed.

(** X17. Once [company_directory] has announced a team lead there is one
    for the rest of the run: after that line it never asks to add a lead
    first and never prints the placeholder of the empty team, whatever
    standard input holds. *)
Theorem company_directory_keeps_a_lead stdin pre lead post :
  (company_directory stdin).2 = pre ++ LeadAdded lead :: post ->
  (NeedLead ∉ post) /\ (Core EmptyTeam ∉ post).
Proof.
  intros Hout. apply orderly_known, (orderly_after_lead false pre lead).
  rewrite <- Hout.
  apply (session_orderly empty_tree _ _ (loop_session empty_tree stdin)).
Qed.

Lemma company_directory_keeps_a_lead_witness :
  let stdin := [Line "3"; Line "1"; Line "Alice"; Line "3"] in
  let pre := [Menu; Ask AskChoice; Header; Core EmptyTeam; Blank;
              Menu; Ask AskChoice; Ask AskLeadName] in
  let post := [Menu; Ask AskChoice; Header; Core (NodeLine 0 "Alice"); Blank;
               Menu; Ask AskChoice; Interrupted] in
  (company_directory stdin).2 = pre ++ LeadAdded "Alice" :: post
  /\ (NeedLead ∉ post) /\ (Core EmptyTeam ∉ post).
Proof.
  split; [reflexivity|].
  apply (company_directory_keeps_a_lead
           [Line "3"; Line "1"; Line "Alice"; Line "3"]
           [Menu; Ask AskChoice; Header; Core EmptyTeam; Blank;
            Menu; Ask AskChoice; Ask AskLeadName] "Alice").
  reflexivity.
Defined.

(** ** The summary of a node *)

(** X18. The summary of a node shows its name and the names of its two
    children, and nothing below them: it is the same after a node was
    attached anywhere under one of its children.  An absent child shows as
    [None], which is the rendering of no name, not even of the name
    "None". *)
Theorem repr_shows_children_only :
  (forall t d p sd c,
      EmployeeNode_repr (attach t (d :: p) sd c) = EmployeeNode_repr t)
  /\ (forall o, repr_child o = "None" <-> o = None).
Proof.
  split.
  - intros [n l r] d p sd c. unfold EmployeeNode_repr.
    destruct d; cbn [attach name left right].
    + destruct l as [l|]; [|done]. simpl. by rewrite name_attach.
    + destruct r as [r|]; [|done]. simpl. by rewrite name_attach.
  - intros [s|]; [|done]. split; [|done]. unfold repr_child, repr_str.
    by destruct (has_char single_quote s && negb (has_char double_quote s)).
Qed.
